(** * NFA to DFA engine: epsilon closure, subset construction, minimisation

    A shallow embedding of [src/engine.js].  JavaScript strings are
    sequences of UTF-16 code units; arrays are lists (push appends at the
    end).  The only array that is mutated in place while it is shared
    between two automaton objects is the [finalStates] array (line 187), so
    final-state arrays live in a store of cells addressed by references.
    Console logging, the DOT rendering and the HTML transition table that
    [generateDFA] writes into the page have no effect on the automata and
    are left out.  Recursion and loops that need not end carry a bound:
    [None] says that the bound was too small. *)

From Stdlib Require Import String Ascii.
From Stdlib Require Import List Bool Arith ZArith NArith Lia.
From Stdlib Require Import Permutation Sorted.
Import ListNotations.

Set Implicit Arguments.

(** ** JavaScript strings *)

(** A string is its sequence of UTF-16 code units. *)
Definition str := list N.

(** An ASCII literal of the source as a sequence of code units. *)
Definition js (s : string) : str :=
  List.map N_of_ascii (list_ascii_of_string s).

Module JsString.

(** [a === b] on strings. *)
Fixpoint eqb (a b : str) : bool :=
  match a, b with
  | [], [] => true
  | x :: a', y :: b' => N.eqb x y && eqb a' b'
  | _, _ => false
  end.

(** The order of the default [Array.prototype.sort] comparator on
    strings: lexicographic on code units. *)
Fixpoint leb (a b : str) : bool :=
  match a, b with
  | [], _ => true
  | _ :: _, [] => false
  | x :: a', y :: b' =>
      if N.ltb x y then true else if N.eqb x y then leb a' b' else false
  end.

Fixpoint isPrefix (p s : str) : bool :=
  match p, s with
  | [], _ => true
  | _ :: _, [] => false
  | x :: p', y :: s' => N.eqb x y && isPrefix p' s'
  end.

Definition startsWith (s p : str) : bool := isPrefix p s.

Definition endsWith (s p : str) : bool := isPrefix (rev p) (rev s).

(** [s.includes(p)]: [p] occurs in [s] as a substring. *)
Fixpoint includes (s p : str) : bool :=
  isPrefix p s ||
  match s with
  | [] => false
  | _ :: s' => includes s' p
  end.

(** WhiteSpace and LineTerminator code points, as stripped by [trim]. *)
Definition isWhiteSpace (c : N) : bool :=
  existsb (N.eqb c)
    [9; 10; 11; 12; 13; 32; 160; 5760; 8192; 8193; 8194; 8195; 8196; 8197;
     8198; 8199; 8200; 8201; 8202; 8232; 8233; 8239; 8287; 12288; 65279]%N.

Fixpoint trimStart (s : str) : str :=
  match s with
  | c :: s' => if isWhiteSpace c then trimStart s' else s
  | [] => []
  end.

Definition trim (s : str) : str := rev (trimStart (rev (trimStart s))).

(** [s.split(',')], with the piece being read kept in [cur]. *)
Fixpoint splitFrom (cur : str) (s : str) : list str :=
  match s with
  | [] => [cur]
  | c :: s' =>
      if N.eqb c 44 then cur :: splitFrom [] s' else splitFrom (cur ++ [c]) s'
  end.

Definition splitComma (s : str) : list str := splitFrom [] s.

(** [s.replace(/,/g, '')]. *)
Definition removeCommas (s : str) : str :=
  filter (fun c => negb (N.eqb c 44)) s.

(** [s.slice(1, -1)], which is also [s.substring(1, s.length - 1)] on the
    strings of two or more code units it is applied to. *)
Definition inner (s : str) : str := removelast (tl s).

End JsString.

Module JsArray.

(** [a.includes(x)] on an array of strings. *)
Definition includes (a : list str) (x : str) : bool :=
  existsb (JsString.eqb x) a.

(** [if (!a.includes(x)) a.push(x)]. *)
Definition pushNew (a : list str) (x : str) : list str :=
  if includes a x then a else a ++ [x].

(** [a.join(',')]. *)
Fixpoint join (a : list str) : str :=
  match a with
  | [] => []
  | [x] => x
  | x :: a' => x ++ [44%N] ++ join a'
  end.

Fixpoint insert (x : str) (a : list str) : list str :=
  match a with
  | [] => [x]
  | y :: a' => if JsString.leb x y then x :: a else y :: insert x a'
  end.

(** [a.sort()] with the default comparator.  The order is total and two
    strings that compare equal are the same string, so the sorted array
    does not depend on the sorting algorithm. *)
Definition sort (a : list str) : list str := fold_right insert [] a.

End JsArray.

(** ** Data model *)

Module Transition.
(** [new Transition(state, nextStates, symbol)].  A [nextStates] argument
    that is not an array is wrapped by the constructor into a one-element
    array (line 24); callers passing a string use [ofString]. *)
Record t := mk { state : str; nextStates : list str; symbol : str }.

Definition ofString (state next symbol : str) : t := mk state [next] symbol.
End Transition.

(** A reference to a final-state array in the store. *)
Definition ref := nat.

Module NFA.
Record t := mk {
  initialState : str;
  finalStates : ref;
  states : list str;
  alphabet : list str;
  transitions : list Transition.t
}.
End NFA.

(** The mutable state of the program: the final-state arrays and the global
    [LAST_COMPLETED_STEP_COUNT]. *)
Record World := mkWorld {
  cells : list (list str);
  LAST_COMPLETED_STEP_COUNT : Z
}.

Definition deref (w : World) (r : ref) : list str := nth r (cells w) [].

Fixpoint setNth (r : nat) (v : list str) (cs : list (list str)) :=
  match cs, r with
  | [], _ => []
  | _ :: cs', O => v :: cs'
  | c :: cs', S r' => c :: setNth r' v cs'
  end.

Definition assign (w : World) (r : ref) (v : list str) : World :=
  mkWorld (setNth r v (cells w)) (LAST_COMPLETED_STEP_COUNT w).

(** A fresh array. *)
Definition alloc (w : World) (v : list str) : World * ref :=
  (mkWorld (cells w ++ [v]) (LAST_COMPLETED_STEP_COUNT w), length (cells w)).

(** ** State-set codec *)

Definition isMultiState (state : str) : bool :=
  JsString.startsWith state [123%N] && JsString.endsWith state [125%N].

(** What [separateStates] returns: the array of members for a multi-state,
    the argument itself (a string, line 444) otherwise. *)
Inductive StrOrArray :=
| IsStr (s : str)
| IsArray (a : list str).

Definition separateStates (state : str) : StrOrArray :=
  if isMultiState state
  then IsArray (JsString.splitComma (JsString.inner state))
  else IsStr state.

(** [v.includes(x)]: [Array.prototype.includes] on an array,
    [String.prototype.includes] on a string. *)
Definition includesIn (v : StrOrArray) (x : str) : bool :=
  match v with
  | IsStr s => JsString.includes s x
  | IsArray a => JsArray.includes a x
  end.

Definition formatDotState (stateStr : str) : str :=
  if isMultiState stateStr
  then JsString.removeCommas (JsString.inner stateStr)
  else stateStr.

Fixpoint dropNull (states : list (option str)) : list str :=
  match states with
  | [] => []
  | Some s :: r => s :: dropNull r
  | None :: r => dropNull r
  end.

(** [combineStates]; [None] among the entries is [null]/[undefined], and
    the result [None] is [null].  The entries are strings, so the branch of
    lines 458-461 for an array as first entry is never taken. *)
Definition combineStates (states : list (option str)) : option str :=
  match dropNull states with
  | [] => None
  | kept =>
      match JsArray.sort kept with
      | [s] => Some s
      | sorted => Some ([123%N] ++ JsArray.join sorted ++ [125%N])
      end
  end.

(** ** Transition index *)

Definition findNextStates (state symbol : str) (transitions : list Transition.t)
  : list str :=
  fold_left
    (fun acc t => fold_left JsArray.pushNew (Transition.nextStates t) acc)
    (filter (fun t => JsString.eqb (Transition.state t) state
                      && JsString.eqb (Transition.symbol t) symbol)
            transitions)
    [].

Definition arraysEqual (a b : list str) : bool :=
  Nat.eqb (length a) (length b) &&
  forallb (fun p => JsString.eqb (fst p) (snd p)) (combine a b).

(** ** Closure engine *)

(** The epsilon glyph, U+03BB. *)
Definition LAMBDA : str := [955%N].

(** A loop body that may fail to return, run over an array. *)
Fixpoint foldM {A B : Type} (f : A -> B -> option A) (l : list B) (a : A)
  : option A :=
  match l with
  | [] => Some a
  | x :: l' =>
      match f a x with
      | Some a' => foldM f l' a'
      | None => None
      end
  end.

(** The test of line 223, on the trimmed symbol. *)
Definition isEpsilonSymbol (symbol : str) : bool :=
  JsString.eqb (JsString.trim symbol) [] ||
  JsString.eqb (JsString.trim symbol) LAMBDA.

(** [fetch_E_Closure]; [depth] bounds the nesting of the recursive calls,
    and [None] says that the call needs more than [depth] nested frames. *)
Fixpoint fetch_E_Closure (depth : nat) (state : str)
    (transitions : list Transition.t) : option (list str) :=
  match depth with
  | O => None
  | S depth' =>
      foldM
        (fun eClosure t =>
           if isEpsilonSymbol (Transition.symbol t)
              && JsString.eqb state (Transition.state t)
           then
             foldM
               (fun eClosure nextState =>
                  if JsArray.includes eClosure nextState then Some eClosure
                  else
                    match fetch_E_Closure depth' nextState transitions with
                    | Some subEClosure =>
                        Some (fold_left JsArray.pushNew subEClosure
                                (eClosure ++ [nextState]))
                    | None => None
                    end)
               (Transition.nextStates t) eClosure
           else Some eClosure)
        transitions [state]
  end.

(** The test of line 151, on the symbol as it is. *)
Definition hasLambda (nfa : NFA.t) : bool :=
  existsb
    (fun t => JsString.eqb (Transition.symbol t) []
              || JsString.eqb (Transition.symbol t) LAMBDA)
    (NFA.transitions nfa).

(** Lines 161-174: the states reached from [stateClosure] on [symbol],
    closed under epsilon. *)
Definition symbolNextStates (depth : nat) (transitions : list Transition.t)
    (stateClosure : list str) (symbol : str) : option (list str) :=
  foldM
    (fun acc closureState =>
       foldM
         (fun acc nextState =>
            match fetch_E_Closure depth nextState transitions with
            | Some closure => Some (fold_left JsArray.pushNew closure acc)
            | None => None
            end)
         (findNextStates closureState symbol transitions) acc)
    stateClosure [].

(** Lines 156-180. *)
Definition nfaClosedTransitions (depth : nat) (nfa : NFA.t)
  : option (list Transition.t) :=
  foldM
    (fun closed state =>
       match fetch_E_Closure depth state (NFA.transitions nfa) with
       | None => None
       | Some stateClosure =>
           foldM
             (fun closed symbol =>
                match symbolNextStates depth (NFA.transitions nfa)
                        stateClosure symbol with
                | Some next =>
                    Some (closed
                            ++ [Transition.mk state (JsArray.sort next) symbol])
                | None => None
                end)
             (NFA.alphabet nfa) closed
       end)
    (NFA.states nfa) [].

(** [lambdaClosureNFA].  The returned automaton holds the same final-state
    array as the argument; line 187 pushes onto that array. *)
Definition lambdaClosureNFA (depth : nat) (w : World) (nfa : NFA.t)
  : option (World * NFA.t) :=
  if negb (hasLambda nfa) then Some (w, nfa)
  else
    match nfaClosedTransitions depth nfa with
    | None => None
    | Some closed =>
        match fetch_E_Closure depth (NFA.initialState nfa)
                (NFA.transitions nfa) with
        | None => None
        | Some initialStateClosure =>
            let finals := deref w (NFA.finalStates nfa) in
            let initClosureHasFinalState :=
              existsb (fun fs => JsArray.includes initialStateClosure fs)
                      finals in
            let w' :=
              if initClosureHasFinalState
              then assign w (NFA.finalStates nfa)
                          (finals ++ [NFA.initialState nfa])
              else w in
            Some (w', NFA.mk (NFA.initialState nfa) (NFA.finalStates nfa)
                        (NFA.states nfa) (NFA.alphabet nfa) closed)
        end
    end.

(** ** Subset constructor *)

Definition TRAP : str := Eval cbv in js "TRAP".

(** The variables of the exploration loop of [generateDFA].  The head of
    [stack] is the top of the source's stack. *)
Record Exploration := mkExploration {
  stepCounter : Z;
  stepInterrupt : bool;
  dfaStates : list str;
  dfaTransitions : list Transition.t;
  stack : list str
}.

(** The truthiness test of line 287: [null] and the empty string fail. *)
Definition truthy (v : option str) : option str :=
  match v with
  | Some (c :: s) => Some (c :: s)
  | _ => None
  end.

(** Lines 276-283. *)
Definition nextStatesUnion (nfa : NFA.t) (states : list str) (symbol : str)
  : list str :=
  fold_left
    (fun acc s =>
       fold_left JsArray.pushNew
         (findNextStates s symbol (NFA.transitions nfa)) acc)
    states [].

(** Lines 275-307 for one symbol. *)
Definition exploreSymbol (nfa : NFA.t) (state : str) (states : list str)
    (e : Exploration) (symbol : str) : Exploration :=
  match truthy (combineStates
                  (List.map Some (nextStatesUnion nfa states symbol))) with
  | Some combinedStatesUnion =>
      let ts := dfaTransitions e
                  ++ [Transition.ofString state combinedStatesUnion symbol] in
      if JsArray.includes (dfaStates e) combinedStatesUnion
      then mkExploration (stepCounter e) (stepInterrupt e) (dfaStates e) ts
             (stack e)
      else mkExploration (stepCounter e) (stepInterrupt e)
             (dfaStates e ++ [combinedStatesUnion]) ts
             (combinedStatesUnion :: stack e)
  | None =>
      let toTrap := Transition.mk state [TRAP] symbol in
      if JsArray.includes (dfaStates e) TRAP
      then mkExploration (stepCounter e) (stepInterrupt e) (dfaStates e)
             (dfaTransitions e ++ [toTrap]) (stack e)
      else mkExploration (stepCounter e) (stepInterrupt e)
             (dfaStates e ++ [TRAP])
             (dfaTransitions e
                ++ List.map (fun a => Transition.mk TRAP [TRAP] a)
                     (NFA.alphabet nfa)
                ++ [toTrap])
             (stack e)
  end.

(** Line 273.  [separateStates] returns an array on a multi-state. *)
Definition membersOf (state : str) : list str :=
  if isMultiState state
  then match separateStates state with
       | IsArray a => a
       | IsStr s => [s]
       end
  else [state].

(** The loop of lines 264-308; [fuel] bounds the number of iterations. *)
Fixpoint explore (fuel : nat) (nfa : NFA.t) (stepCounterStop : Z)
    (e : Exploration) : option Exploration :=
  match stack e with
  | [] => Some e
  | state :: rest =>
      match fuel with
      | O => None
      | S fuel' =>
          let counter := (stepCounter e + 1)%Z in
          if Z.eqb counter stepCounterStop
          then Some (mkExploration counter true (dfaStates e)
                       (dfaTransitions e) rest)
          else
            explore fuel' nfa stepCounterStop
              (fold_left (exploreSymbol nfa state (membersOf state))
                 (NFA.alphabet nfa)
                 (mkExploration counter (stepInterrupt e) (dfaStates e)
                    (dfaTransitions e) rest))
      end
  end.

(** Lines 254-262. *)
Definition startExploration (nfa : NFA.t) : Exploration :=
  mkExploration 0 false [NFA.initialState nfa] [] [NFA.initialState nfa].

(** Lines 315-316: is [dfaState] classified as final? *)
Definition isFinal (nfaFinalStates : list str) (dfaState : str) : bool :=
  existsb (fun fs => includesIn (separateStates dfaState) fs) nfaFinalStates.

(** [generateDFA(nfa, stepCounterStop)].  [depth] bounds the recursion of the
    closure stage and [fuel] the iterations of the exploration loop.  The
    array of the DFA's final states is a fresh one. *)
Definition generateDFA (depth fuel : nat) (w : World) (nfa : NFA.t)
    (stepCounterStop : Z) : option (World * NFA.t) :=
  match lambdaClosureNFA depth w nfa with
  | None => None
  | Some (w1, nfa1) =>
      match explore fuel nfa1 stepCounterStop (startExploration nfa1) with
      | None => None
      | Some e =>
          let dfaFinalStates :=
            List.map formatDotState
              (filter (isFinal (deref w1 (NFA.finalStates nfa1)))
                 (dfaStates e)) in
          let w2 :=
            if stepInterrupt e then w1
            else mkWorld (cells w1) (stepCounter e) in
          let (w3, finalsRef) := alloc w2 dfaFinalStates in
          Some (w3, NFA.mk (NFA.initialState nfa1) finalsRef (dfaStates e)
                      (NFA.alphabet nfa1) (dfaTransitions e))
      end
  end.

(** ** Minimizer *)

(** Lines 389-397: drop the transitions leaving [remove] and redirect the
    first successor of the others. *)
Definition rewriteTransitions (remove replace : str)
    (transitions : list Transition.t) : list Transition.t :=
  List.map
    (fun t =>
       match Transition.nextStates t with
       | n :: rest =>
           if JsString.eqb n remove
           then Transition.mk (Transition.state t) (replace :: rest)
                  (Transition.symbol t)
           else t
       | [] => t
       end)
    (filter (fun t => negb (JsString.eqb (Transition.state t) remove))
       transitions).

(** The body of the inner loop, lines 352-403. *)
Definition mergePair (state state2 : str) (acc : World * NFA.t)
  : World * NFA.t :=
  let (w, dfa) := acc in
  let finals := deref w (NFA.finalStates dfa) in
  if negb (JsString.eqb state state2)
     && Bool.eqb (JsArray.includes finals (formatDotState state))
                 (JsArray.includes finals (formatDotState state2))
  then
    let statesEqual :=
      forallb
        (fun symbol =>
           arraysEqual (findNextStates state symbol (NFA.transitions dfa))
                       (findNextStates state2 symbol (NFA.transitions dfa)))
        (NFA.alphabet dfa) in
    if statesEqual then
      let (remove, replace) :=
        if JsString.eqb (NFA.initialState dfa) state
        then (state2, state) else (state, state2) in
      if JsString.eqb remove TRAP then acc
      else
        let keep s :=
          negb (JsString.eqb (formatDotState s) (formatDotState remove)) in
        let (w', finalsRef) := alloc w (filter keep finals) in
        (w', NFA.mk (NFA.initialState dfa) finalsRef
               (filter keep (NFA.states dfa)) (NFA.alphabet dfa)
               (rewriteTransitions remove replace (NFA.transitions dfa)))
    else acc
  else acc.

(** [minimizeDFA].  Each [forEach] runs over the array that [dfa.states]
    held when that loop started. *)
Definition minimizeDFA (w : World) (dfa : NFA.t) : World * NFA.t :=
  fold_left
    (fun acc state =>
       fold_left (fun acc state2 => mergePair state state2 acc)
         (NFA.states (snd acc)) acc)
    (NFA.states dfa) (w, dfa).

(** ** Auxiliary notions of the proofs *)

(** Sorted for the comparator of [sort]. *)
Definition sortedStr : list str -> Prop :=
  Sorted (fun a b => JsString.leb a b = true).

(** [combineStates] is a rendering of the sorted non-null entries. *)
Definition render (sorted : list str) : option str :=
  match sorted with
  | [] => None
  | [s] => Some s
  | _ => Some ([123%N] ++ JsArray.join sorted ++ [125%N])
  end.

(** The composition as the specification words it: [combineStates] with the
    members deduplicated before they are joined. *)
Definition composeAsSpecified (states : list (option str)) : option str :=
  match dropNull states with
  | [] => None
  | [s] => Some s
  | kept =>
      Some ([123%N]
              ++ JsArray.join (nodup (list_eq_dec N.eq_dec) (JsArray.sort kept))
              ++ [125%N])
  end.

Definition isSome (v : option str) : bool :=
  match v with Some _ => true | None => false end.

(** ** Example automata *)

Definition arrow (state next symbol : string) : Transition.t :=
  Transition.ofString (js state) (js next) (js symbol).

(** A world holding one array of final states, at reference 0. *)
Definition worldOf (finals : list string) : World :=
  mkWorld [List.map js finals] 0.

(** A-λ->B, B-λ->A. *)
Definition epsilonCycle : list Transition.t :=
  [Transition.mk (js "A") [js "B"] LAMBDA;
   Transition.mk (js "B") [js "A"] LAMBDA].

(** A-0->B with A initial and final. *)
Definition nfaTrapFinal : NFA.t :=
  NFA.mk (js "A") 0 [js "A"; js "B"] [js "0"] [arrow "A" "B" "0"].

(** AB-0->A, AB-0->B, A-0->A, B-0->B with AB initial; A and AB final. *)
Definition nfaInitialAB : NFA.t :=
  NFA.mk (js "AB") 0 [js "AB"; js "A"; js "B"] [js "0"]
    [arrow "AB" "A" "0"; arrow "AB" "B" "0"; arrow "A" "A" "0";
     arrow "B" "B" "0"].

(** S-0->X, S-0->Y, S-1->XY with S initial and X final. *)
Definition nfaCollision : NFA.t :=
  NFA.mk (js "S") 0 [js "S"; js "X"; js "Y"; js "XY"] [js "0"; js "1"]
    [arrow "S" "X" "0"; arrow "S" "Y" "0"; arrow "S" "XY" "1"].

(** A-λ->B, B-1->C with A initial and C final. *)
Definition nfaLambda : NFA.t :=
  NFA.mk (js "A") 0 [js "A"; js "B"; js "C"] [js "1"]
    [Transition.mk (js "A") [js "B"] LAMBDA; arrow "B" "C" "1"].

(** ** Invariants of the exploration loop *)

(** The transitions of [transitions] that leave [s], in order. *)
Definition row (s : str) (transitions : list Transition.t)
  : list Transition.t :=
  filter (fun t => JsString.eqb (Transition.state t) s) transitions.

(** [s] has been explored: its transitions carry the symbols of the
    alphabet, one each, in the order of the alphabet. *)
Definition explored (sigma : list str) (s : str)
    (transitions : list Transition.t) : Prop :=
  List.map Transition.symbol (row s transitions) = sigma.

Definition singleSuccessor (t : Transition.t) : Prop :=
  exists n, Transition.nextStates t = [n].

(** At the head of the loop. *)
Record loopInv (sigma : list str) (e : Exploration) : Prop := {
  li_nodup : NoDup (stack e);
  li_known : incl (stack e) (dfaStates e);
  li_fresh : forall s, In s (stack e) -> row s (dfaTransitions e) = [];
  li_rows : forall s, In s (dfaStates e) ->
                      In s (stack e) \/ explored sigma s (dfaTransitions e);
  li_sources : forall t, In t (dfaTransitions e) ->
                         In (Transition.state t) (dfaStates e);
  li_single : Forall singleSuccessor (dfaTransitions e)
}.

(** Inside the loop over the alphabet, for the popped [state], when the
    symbols of [done] have been dealt with. *)
Record symbolInv (sigma : list str) (state : str) (done : list str)
    (e : Exploration) : Prop := {
  si_nodup : NoDup (stack e);
  si_popped : ~ In state (stack e);
  si_state : In state (dfaStates e);
  si_known : incl (stack e) (dfaStates e);
  si_fresh : forall s, In s (stack e) -> row s (dfaTransitions e) = [];
  si_row : List.map Transition.symbol (row state (dfaTransitions e)) = done;
  si_rows : forall s, In s (dfaStates e) -> s <> state ->
                      In s (stack e) \/ explored sigma s (dfaTransitions e);
  si_sources : forall t, In t (dfaTransitions e) ->
                         In (Transition.state t) (dfaStates e);
  si_single : Forall singleSuccessor (dfaTransitions e)
}.

(** ** A bound on the number of iterations of the exploration loop *)

(** The lists over [letters] of length at most [n]. *)
Fixpoint listsUpTo (n : nat) (letters : list str) : list (list str) :=
  match n with
  | O => [[]]
  | S n' =>
      [] :: flat_map (fun l => List.map (fun x => x :: l) letters)
              (listsUpTo n' letters)
  end.

(** The states named as successors by the transitions. *)
Definition targets (transitions : list Transition.t) : list str :=
  flat_map Transition.nextStates transitions.

(** Every identifier that [combineStates] can build from successors. *)
Definition candidates (nfa : NFA.t) : list str :=
  flat_map (fun l => match render l with Some c => [c] | None => [] end)
    (listsUpTo (length (targets (NFA.transitions nfa)))
       (targets (NFA.transitions nfa))).

(** How many of them are not yet among the [known] states. *)
Definition undiscovered (nfa : NFA.t) (known : list str) : nat :=
  length (filter (fun c => negb (JsArray.includes known c)) (candidates nfa)).

(** The iterations left are at most the states waiting on the stack plus
    the states still to be discovered. *)
Definition iterationsLeft (nfa : NFA.t) (e : Exploration) : nat :=
  length (stack e) + undiscovered nfa (dfaStates e).

(** A-0->A, A-0->B, A-1->A, B-1->C with A initial and C final. *)
Definition nfaSubset : NFA.t :=
  NFA.mk (js "A") 0 [js "A"; js "B"; js "C"] [js "0"; js "1"]
    [arrow "A" "A" "0"; arrow "A" "B" "0"; arrow "A" "A" "1";
     arrow "B" "C" "1"].

(** The DFA of [nfaSubset], and the world after its construction. *)
Definition dfaSubset : NFA.t :=
  NFA.mk (js "A") 1 [js "A"; js "{A,B}"; js "{A,C}"] [js "0"; js "1"]
    [arrow "A" "{A,B}" "0"; arrow "A" "A" "1";
     arrow "{A,B}" "{A,B}" "0"; arrow "{A,B}" "{A,C}" "1";
     arrow "{A,C}" "{A,B}" "0"; arrow "{A,C}" "A" "1"].

Definition worldSubset : World := mkWorld [[js "C"]; [js "AC"]] 3.

(** The partial DFA of [nfaSubset] when the second step is the limit, and
    the world after its construction from a world whose record is 7. *)
Definition dfaInterrupted : NFA.t :=
  NFA.mk (js "A") 1 [js "A"; js "{A,B}"] [js "0"; js "1"]
    [arrow "A" "{A,B}" "0"; arrow "A" "A" "1"].

Definition worldBefore : World := mkWorld [[js "C"]] 7.

Definition worldInterrupted : World := mkWorld [[js "C"]; []] 7.

(** A-λ->B, B-λ->A, B-1->C with A initial and C final. *)
Definition nfaCycle : NFA.t :=
  NFA.mk (js "A") 0 [js "A"; js "B"; js "C"] [js "1"] epsilonCycle.

(** A DFA with a state whose display name is TRAP:
    q-0->{TR,AP}, {TR,AP}-0->TRAP, Z-0->TRAP, TRAP-0->TRAP, q initial. *)
Definition dfaTrapName : NFA.t :=
  NFA.mk (js "q") 0 [js "q"; js "{TR,AP}"; js "Z"; js "TRAP"] [js "0"]
    [arrow "q" "{TR,AP}" "0"; arrow "{TR,AP}" "TRAP" "0";
     arrow "Z" "TRAP" "0"; arrow "TRAP" "TRAP" "0"].

(** ** Epsilon reachability *)

(** [y] is listed as a successor of [x] by a transition that the closure
    follows (the test of line 223 on its symbol). *)
Definition epsilonStep (transitions : list Transition.t) (x y : str) : Prop :=
  exists t, In t transitions /\
            isEpsilonSymbol (Transition.symbol t) = true /\
            Transition.state t = x /\ In y (Transition.nextStates t).

(** [x] is reached from [s] by zero or more such steps. *)
Inductive epsilonReach (transitions : list Transition.t) (s : str)
  : str -> Prop :=
| reach_self : epsilonReach transitions s s
| reach_next (x y : str) :
    epsilonReach transitions s x -> epsilonStep transitions x y ->
    epsilonReach transitions s y.

(** A ranking of the states of [nfaLambda]: A above B and C. *)
Definition rankLambda (s : str) : nat :=
  if JsString.eqb s (js "A") then 1 else 0.

(** ** Epsilon elimination *)

(** The source and the symbol of a transition. *)
Definition transitionKey (t : Transition.t) : str * str :=
  (Transition.state t, Transition.symbol t).

(** [x] is reached from [s] by epsilon transitions, one transition on [a],
    and epsilon transitions again. *)
Definition closedSuccessor (transitions : list Transition.t) (s a x : str)
  : Prop :=
  exists p q, epsilonReach transitions s p /\
              In q (findNextStates p a transitions) /\
              epsilonReach transitions q x.

(** What [lambdaClosureNFA] makes of [nfaLambda]. *)
Definition nfaLambdaClosed : NFA.t :=
  NFA.mk (js "A") 0 [js "A"; js "B"; js "C"] [js "1"]
    [Transition.mk (js "A") [js "C"] (js "1");
     Transition.mk (js "B") [js "C"] (js "1");
     Transition.mk (js "C") [] (js "1")].

(** ** Subset constructor *)

(** The states and transitions built so far are consistent: the states are
    pairwise different and start with [init], the waiting states are known,
    and every transition leaves a known state and has one successor, a
    known state. *)
Record consistent (init : str) (e : Exploration) : Prop := {
  co_nodup : NoDup (dfaStates e);
  co_first : hd_error (dfaStates e) = Some init;
  co_stack : incl (stack e) (dfaStates e);
  co_transitions :
    forall t, In t (dfaTransitions e) ->
              In (Transition.state t) (dfaStates e) /\
              exists n, Transition.nextStates t = [n] /\ In n (dfaStates e)
}.

(** The state that the subset construction reaches from [state] on
    [symbol]: the identifier of the union of the successors of its
    members, or the trap state when there is none (lines 276-306). *)
Definition dfaTarget (nfa : NFA.t) (state symbol : str) : str :=
  match truthy (combineStates
                  (List.map Some
                     (nextStatesUnion nfa (membersOf state) symbol))) with
  | Some combinedStatesUnion => combinedStatesUnion
  | None => TRAP
  end.

(** The step counter counts the states taken from the stack: with the
    waiting states it makes up the known states, but for a trap state made
    at line 302, which never waits. *)
Definition stepsAccounted (e : Exploration) : Prop :=
  Z.of_nat (length (dfaStates e))
  = (stepCounter e + Z.of_nat (length (stack e)))%Z \/
  (Z.of_nat (length (dfaStates e))
   = (stepCounter e + Z.of_nat (length (stack e)) + 1)%Z /\
   In TRAP (dfaStates e)).

(** A transition of the subset construction for [nfa]: on a symbol of the
    alphabet, a self loop of the trap state or the step to [dfaTarget]. *)
Definition constructed (nfa : NFA.t) (t : Transition.t) : Prop :=
  In (Transition.symbol t) (NFA.alphabet nfa) /\
  ((Transition.state t = TRAP /\ Transition.nextStates t = [TRAP]) \/
   Transition.nextStates t
   = [dfaTarget nfa (Transition.state t) (Transition.symbol t)]).

(** ** Form input *)



(** ** Minimizer *)

(** Two states a and b with the same successors on 0 and 1, and the
    initial state q leading to them:
    q-0->a, q-1->b, a-0->a, a-1->a, b-0->a, b-1->a. *)
Definition dfaTwins : NFA.t :=
  NFA.mk (js "q") 0 [js "q"; js "a"; js "b"] [js "0"; js "1"]
    [arrow "q" "a" "0"; arrow "q" "b" "1"; arrow "a" "a" "0";
     arrow "a" "a" "1"; arrow "b" "a" "0"; arrow "b" "a" "1"].
(** * Properties *)

(** ** Strings and arrays *)

Lemma eqb_eq (a b : str) : JsString.eqb a b = true <-> a = b.
Proof.
  revert b; induction a as [|x a IH]; intros [|y b]; simpl;
    try (split; [discriminate | congruence]); try tauto.
  rewrite andb_true_iff, N.eqb_eq, IH.
  split; [intros [-> ->]; reflexivity | intros H; inversion H; auto].
Qed.

Lemma eqb_refl (a : str) : JsString.eqb a a = true.
Proof. apply eqb_eq; reflexivity. Qed.

Lemma eqb_neq (a b : str) : JsString.eqb a b = false <-> a <> b.
Proof.
  rewrite <- eqb_eq. destruct (JsString.eqb a b); split; congruence.
Qed.

Lemma eqb_sym (a b : str) : JsString.eqb a b = JsString.eqb b a.
Proof.
  destruct (JsString.eqb b a) eqn:E.
  - apply eqb_eq in E; subst; apply eqb_refl.
  - apply eqb_neq in E; apply eqb_neq; congruence.
Qed.

Lemma includes_In (a : list str) (x : str) :
  JsArray.includes a x = true <-> In x a.
Proof.
  unfold JsArray.includes. rewrite existsb_exists. split.
  - intros [y [Hy E]]. apply eqb_eq in E; subst; assumption.
  - intros H. exists x. split; [assumption | apply eqb_refl].
Qed.

Lemma includes_not_In (a : list str) (x : str) :
  JsArray.includes a x = false <-> ~ In x a.
Proof.
  rewrite <- includes_In. destruct (JsArray.includes a x); split; congruence.
Qed.

Lemma pushNew_In (a : list str) (x y : str) :
  In y (JsArray.pushNew a x) <-> In y a \/ y = x.
Proof.
  unfold JsArray.pushNew. destruct (JsArray.includes a x) eqn:E.
  - apply includes_In in E. split; [auto | intros [H | ->]; assumption].
  - rewrite in_app_iff; simpl. split; intros [H | H]; auto.
    + destruct H as [-> | []]; auto.
  Qed.

Lemma pushNew_NoDup (a : list str) (x : str) :
  NoDup a -> NoDup (JsArray.pushNew a x).
Proof.
  intros H. unfold JsArray.pushNew. destruct (JsArray.includes a x) eqn:E.
  - assumption.
  - apply includes_not_In in E.
    apply NoDup_app; [assumption | repeat constructor; auto | ].
    intros y Hy [<- | []]; auto.
Qed.

Lemma fold_pushNew_In (xs a : list str) (y : str) :
  In y (fold_left JsArray.pushNew xs a) <-> In y a \/ In y xs.
Proof.
  revert a; induction xs as [|x xs IH]; intros a; simpl.
  - tauto.
  - rewrite IH, pushNew_In. intuition (subst; auto).
Qed.

Lemma fold_pushNew_NoDup (xs a : list str) :
  NoDup a -> NoDup (fold_left JsArray.pushNew xs a).
Proof.
  revert a; induction xs as [|x xs IH]; intros a H; simpl.
  - assumption.
  - apply IH, pushNew_NoDup, H.
Qed.

(** The comparator of [sort] is a total order on strings. *)
Lemma leb_total (a b : str) : JsString.leb a b = false -> JsString.leb b a = true.
Proof.
  revert b; induction a as [|x a IH]; intros [|y b]; simpl; try congruence.
  destruct (N.ltb x y) eqn:L; [discriminate|].
  destruct (N.eqb x y) eqn:E.
  - apply N.eqb_eq in E; subst. rewrite N.ltb_irrefl, N.eqb_refl. apply IH.
  - intros _. apply N.ltb_ge in L. apply N.eqb_neq in E.
    assert (H : (y < x)%N) by lia. apply N.ltb_lt in H. rewrite H. reflexivity.
Qed.

Lemma leb_antisym (a b : str) :
  JsString.leb a b = true -> JsString.leb b a = true -> a = b.
Proof.
  revert b; induction a as [|x a IH]; intros [|y b]; simpl; try congruence.
  destruct (N.ltb x y) eqn:L.
  - apply N.ltb_lt in L. destruct (N.ltb y x) eqn:L'.
    + apply N.ltb_lt in L'. lia.
    + destruct (N.eqb y x) eqn:E; [apply N.eqb_eq in E; lia | discriminate].
  - destruct (N.eqb x y) eqn:E; [|discriminate].
    apply N.eqb_eq in E; subst. rewrite N.ltb_irrefl, N.eqb_refl.
    intros H1 H2. f_equal. apply IH; assumption.
Qed.

Lemma leb_trans (a b c : str) :
  JsString.leb a b = true -> JsString.leb b c = true -> JsString.leb a c = true.
Proof.
  revert b c; induction a as [|x a IH]; intros [|y b] [|z c]; simpl;
    try congruence.
  destruct (N.ltb x y) eqn:L1; destruct (N.ltb y z) eqn:L2;
    destruct (N.eqb x y) eqn:E1; destruct (N.eqb y z) eqn:E2;
    try discriminate;
    repeat match goal with
           | H : N.ltb _ _ = true |- _ => apply N.ltb_lt in H
           | H : N.ltb _ _ = false |- _ => apply N.ltb_ge in H
           | H : N.eqb _ _ = true |- _ => apply N.eqb_eq in H
           | H : N.eqb _ _ = false |- _ => apply N.eqb_neq in H
           end; intros H1 H2.
  all: try (assert (Hlt : (x < z)%N) by lia; apply N.ltb_lt in Hlt;
            rewrite Hlt; reflexivity).
  subst. rewrite N.ltb_irrefl, N.eqb_refl. eapply IH; eassumption.
Qed.

Lemma insert_Permutation (x : str) (a : list str) :
  Permutation (JsArray.insert x a) (x :: a).
Proof.
  induction a as [|y a IH]; simpl.
  - reflexivity.
  - destruct (JsString.leb x y); [reflexivity|].
    rewrite IH. apply perm_swap.
Qed.

Lemma sort_Permutation (a : list str) : Permutation (JsArray.sort a) a.
Proof.
  induction a as [|x a IH]; simpl.
  - constructor.
  - rewrite insert_Permutation. constructor. exact IH.
Qed.

Lemma insert_sorted (x : str) (a : list str) :
  sortedStr a -> sortedStr (JsArray.insert x a).
Proof.
  unfold sortedStr. induction a as [|y a IH]; simpl; intros H.
  - repeat constructor.
  - destruct (JsString.leb x y) eqn:L.
    + constructor; [assumption | constructor; assumption].
    + inversion H as [|? ? Hs Hh]; subst. constructor; [apply IH; assumption|].
      apply leb_total in L.
      destruct a as [|z a]; simpl.
      * constructor; assumption.
      * destruct (JsString.leb x z); constructor; try assumption.
        inversion Hh; assumption.
Qed.

Lemma sort_sorted (a : list str) : sortedStr (JsArray.sort a).
Proof.
  induction a as [|x a IH]; simpl.
  - constructor.
  - apply insert_sorted, IH.
Qed.

Lemma sort_In (a : list str) (x : str) : In x (JsArray.sort a) <-> In x a.
Proof.
  split; apply Permutation_in;
    [apply sort_Permutation | symmetry; apply sort_Permutation].
Qed.

Lemma sort_length (a : list str) : length (JsArray.sort a) = length a.
Proof. apply Permutation_length, sort_Permutation. Qed.

Lemma sorted_head_least (x : str) (l : list str) :
  sortedStr (x :: l) -> forall y, In y l -> JsString.leb x y = true.
Proof.
  intros H. apply Sorted_StronglySorted in H.
  - inversion H as [|? ? _ Hall]; subst.
    intros y Hy. rewrite Forall_forall in Hall. apply Hall, Hy.
  - intros a b c. apply leb_trans.
Qed.

(** Whatever the algorithm of [sort], its result is this one. *)
Lemma sorted_Permutation_unique (l1 l2 : list str) :
  sortedStr l1 -> sortedStr l2 -> Permutation l1 l2 -> l1 = l2.
Proof.
  revert l2; induction l1 as [|x l1 IH]; intros l2 H1 H2 HP.
  - apply Permutation_nil in HP. congruence.
  - destruct l2 as [|y l2];
      [apply Permutation_sym, Permutation_nil in HP; discriminate|].
    assert (E : x = y).
    { assert (Hx : In x (y :: l2))
        by (eapply Permutation_in; [exact HP | left; reflexivity]).
      assert (Hy : In y (x :: l1))
        by (eapply Permutation_in;
            [apply Permutation_sym; exact HP | left; reflexivity]).
      destruct Hx as [Hx | Hx]; [congruence|].
      destruct Hy as [Hy | Hy]; [congruence|].
      apply leb_antisym.
      - apply (sorted_head_least H1), Hy.
      - apply (sorted_head_least H2), Hx. }
    subst y. f_equal. apply IH.
    + inversion H1; assumption.
    + inversion H2; assumption.
    + eapply Permutation_cons_inv, HP.
Qed.

Lemma dropNull_Some (l : list str) : dropNull (List.map Some l) = l.
Proof. induction l; simpl; congruence. Qed.

Lemma combineStates_render (states : list (option str)) :
  combineStates states = render (JsArray.sort (dropNull states)).
Proof.
  unfold combineStates. destruct (dropNull states) as [|x k] eqn:E.
  - reflexivity.
  - pose proof (sort_length (x :: k)) as HL.
    destruct (JsArray.sort (x :: k)) as [|y [|z r]]; simpl in *;
      [discriminate | reflexivity | reflexivity].
Qed.

(** ** State-set codec *)

Lemma dropNull_filter (states : list (option str)) :
  List.map Some (dropNull states) = filter isSome states.
Proof.
  induction states as [|[s|] r IH]; simpl; congruence.
Qed.

(** C5, as amended: [combineStates] drops the null entries, sorts the rest
    lexicographically and returns null when nothing remains, the single
    member when one remains, and otherwise the sorted members joined with
    commas between the brackets.  The members are a permutation of the
    non-null entries: nothing is deduplicated. *)
Theorem combineStates_sorted_join (states : list (option str)) :
  exists sorted : list str,
    List.map Some (dropNull states) = filter isSome states /\
    Permutation sorted (dropNull states) /\
    sortedStr sorted /\
    combineStates states =
      match sorted with
      | [] => None
      | [s] => Some s
      | _ => Some (js "{" ++ JsArray.join sorted ++ js "}")
      end.
Proof.
  exists (JsArray.sort (dropNull states)).
  split; [apply dropNull_filter|].
  split; [apply sort_Permutation|].
  split; [apply sort_sorted|].
  apply combineStates_render.
Qed.

(** C5, as stated, fails: a repeated entry is repeated in the composite
    identifier, where the specified composition has it once. *)
Lemma combineStates_keeps_duplicates :
  combineStates [Some (js "A"); Some (js "A")] = Some (js "{A,A}") /\
  composeAsSpecified [Some (js "A"); Some (js "A")] = Some (js "{A}") /\
  combineStates [Some (js "A"); Some (js "A")]
    <> composeAsSpecified [Some (js "A"); Some (js "A")].
Proof.
  split; [reflexivity|]. split; [reflexivity|]. discriminate.
Qed.

Lemma separateStates_not_multi (state : str) :
  isMultiState state = false -> separateStates state = IsStr state.
Proof. unfold separateStates. intros ->. reflexivity. Qed.

(** C6: on the simple identifier "A", [separateStates] returns the string
    "A" itself and not the one-element array of it. *)
Theorem separateStates_simple_not_array :
  isMultiState (js "A") = false /\
  separateStates (js "A") = IsStr (js "A") /\
  separateStates (js "A") <> IsArray [js "A"].
Proof.
  split; [reflexivity|]. split; [reflexivity|]. discriminate.
Qed.

(** ** Closure engine *)

(** C2: on the epsilon cycle A-λ->B, B-λ->A the call for A never returns,
    and neither does the call for B: whatever the number of nested frames
    allowed, each needs more, because the call for A calls the one for B
    with a fresh closure array, and the call for B the one for A. *)
Theorem fetch_E_Closure_cycle_diverges :
  forall depth : nat,
    fetch_E_Closure depth (js "A") epsilonCycle = None /\
    fetch_E_Closure depth (js "B") epsilonCycle = None.
Proof.
  induction depth as [|d [IHA IHB]].
  - split; reflexivity.
  - split; simpl.
    + change (fetch_E_Closure d [66%N] epsilonCycle) with
        (fetch_E_Closure d (js "B") epsilonCycle).
      rewrite IHB. reflexivity.
    + change (fetch_E_Closure d [65%N] epsilonCycle) with
        (fetch_E_Closure d (js "A") epsilonCycle).
      rewrite IHA. reflexivity.
Qed.

(** A self loop is caught by the guard of line 230. *)
Lemma fetch_E_Closure_self_loop :
  fetch_E_Closure 1 (js "A") [Transition.mk (js "A") [js "A"] LAMBDA]
  = Some [js "A"].
Proof. reflexivity. Qed.

Lemma foldM_inv {A B : Type} (P : A -> Prop) (f : A -> B -> option A)
    (l : list B) (a r : A) :
  P a ->
  (forall a x a', In x l -> P a -> f a x = Some a' -> P a') ->
  foldM f l a = Some r -> P r.
Proof.
  revert a; induction l as [|x l IH]; simpl; intros a Ha Hstep Hr.
  - congruence.
  - destruct (f a x) as [a'|] eqn:E; [|discriminate].
    eapply IH; [ | | exact Hr]; eauto.
Qed.

(** The closure holds the state it is computed for. *)
Lemma fetch_E_Closure_self (depth : nat) (state : str)
    (transitions : list Transition.t) (closure : list str) :
  fetch_E_Closure depth state transitions = Some closure -> In state closure.
Proof.
  destruct depth as [|d]; simpl; [discriminate|].
  apply foldM_inv with (P := fun c => In state c); [left; reflexivity|].
  intros c t c' _ Hc.
  destruct (_ && _); [|congruence].
  apply foldM_inv with (P := fun c => In state c); [assumption|].
  intros c1 n c2 _ Hc1.
  destruct (JsArray.includes c1 n); [congruence|].
  destruct (fetch_E_Closure d n transitions); [|discriminate].
  intros [= <-]. apply fold_pushNew_In. left. apply in_or_app. auto.
Qed.

Lemma setNth_nth (r : nat) (v : list str) (cs : list (list str)) :
  r < length cs -> nth r (setNth r v cs) [] = v.
Proof.
  revert r; induction cs as [|c cs IH]; intros [|r]; simpl; intros H;
    try lia; auto.
  apply IH. lia.
Qed.

Lemma deref_assign (w : World) (r : ref) (v : list str) :
  r < length (cells w) -> deref (assign w r v) r = v.
Proof. apply setNth_nth. Qed.

(** C10, as amended: when the automaton has an epsilon transition (a symbol
    equal to the empty string or to the epsilon glyph) and the call returns,
    the returned automaton holds the very final-state array of the argument;
    the closure of the initial state holds the initial state; the initial
    state is pushed onto that array exactly when the closure holds a final
    state; so an initial state that is already final is pushed again and the
    array then has it twice. *)
Theorem lambdaClosureNFA_pushes_initial (depth : nat) (w w' : World)
    (nfa nfa' : NFA.t) :
  NFA.finalStates nfa < length (cells w) ->
  hasLambda nfa = true ->
  lambdaClosureNFA depth w nfa = Some (w', nfa') ->
  let finals := deref w (NFA.finalStates nfa) in
  let finals' := deref w' (NFA.finalStates nfa) in
  NFA.finalStates nfa' = NFA.finalStates nfa /\
  (exists closure : list str,
      fetch_E_Closure depth (NFA.initialState nfa) (NFA.transitions nfa)
        = Some closure /\
      In (NFA.initialState nfa) closure /\
      ((exists fs, In fs finals /\ In fs closure) ->
       finals' = finals ++ [NFA.initialState nfa]) /\
      ((forall fs, In fs finals -> ~ In fs closure) -> finals' = finals)) /\
  (In (NFA.initialState nfa) finals ->
   finals' = finals ++ [NFA.initialState nfa] /\ ~ NoDup finals').
Proof.
  intros Hr Hl Hrun finals finals'. unfold lambdaClosureNFA in Hrun.
  rewrite Hl in Hrun; simpl in Hrun.
  destruct (nfaClosedTransitions depth nfa) as [closed|]; [|discriminate].
  destruct (fetch_E_Closure depth (NFA.initialState nfa) (NFA.transitions nfa))
    as [closure|] eqn:Hc; [|discriminate].
  pose proof (fetch_E_Closure_self _ _ _ Hc) as Hself.
  fold finals in Hrun.
  assert (Hyes : (exists fs, In fs finals /\ In fs closure) ->
                 finals' = finals ++ [NFA.initialState nfa]).
  { intros [fs [H1 H2]].
    assert (E : existsb (fun fs => JsArray.includes closure fs) finals = true).
    { apply existsb_exists. exists fs. split; [assumption|].
      apply includes_In; assumption. }
    rewrite E in Hrun. injection Hrun as <- <-.
    unfold finals'. apply deref_assign; assumption. }
  split; [|split].
  - destruct (existsb _ finals); injection Hrun as <- <-; reflexivity.
  - exists closure. repeat split; try assumption.
    intros Hno.
    assert (E : existsb (fun fs => JsArray.includes closure fs) finals = false).
    { apply not_true_is_false. intros E. apply existsb_exists in E.
      destruct E as [fs [H1 H2]]. apply includes_In in H2.
      exact (Hno fs H1 H2). }
    rewrite E in Hrun. injection Hrun as <- <-. reflexivity.
  - intros Hin.
    assert (E : finals' = finals ++ [NFA.initialState nfa]).
    { apply Hyes. exists (NFA.initialState nfa). split; assumption. }
    split; [assumption|]. rewrite E. intros Hnd.
    apply NoDup_remove_2 with (l' := []) in Hnd.
    apply Hnd. rewrite app_nil_r. assumption.
Qed.

(** On A-λ->B, B-1->C with A initial and A, C final: A is pushed again. *)
Lemma lambdaClosureNFA_pushes_initial_witness :
  let w := worldOf ["A"; "C"]%string in
  let w' := assign w 0 [js "A"; js "C"; js "A"] in
  let nfa' :=
    NFA.mk (js "A") 0 [js "A"; js "B"; js "C"] [js "1"]
      [Transition.mk (js "A") [js "C"] (js "1");
       Transition.mk (js "B") [js "C"] (js "1");
       Transition.mk (js "C") [] (js "1")] in
  lambdaClosureNFA 2 w nfaLambda = Some (w', nfa') /\
  NFA.finalStates nfa' = NFA.finalStates nfaLambda /\
  (In (js "A") (deref w 0) ->
   deref w' 0 = deref w 0 ++ [js "A"] /\ ~ NoDup (deref w' 0)).
Proof.
  intros w w' nfa'.
  assert (Hrun : lambdaClosureNFA 2 w nfaLambda = Some (w', nfa'))
    by reflexivity.
  split; [exact Hrun|].
  destruct (@lambdaClosureNFA_pushes_initial 2 w w' nfaLambda nfa')
    as [Halias [_ Hdup]].
  - simpl; lia.
  - reflexivity.
  - exact Hrun.
  - split; [exact Halias | exact Hdup].
Defined.

(** C10, as stated, fails: without an epsilon transition the call returns
    at line 152 and nothing is pushed, although the closure of the initial
    state holds a final state. *)
Lemma lambdaClosureNFA_no_lambda_no_push :
  fetch_E_Closure 1 (NFA.initialState nfaTrapFinal)
    (NFA.transitions nfaTrapFinal) = Some [js "A"] /\
  deref (worldOf ["A"%string]) (NFA.finalStates nfaTrapFinal) = [js "A"] /\
  forall depth,
    lambdaClosureNFA depth (worldOf ["A"%string]) nfaTrapFinal
    = Some (worldOf ["A"%string], nfaTrapFinal).
Proof.
  split; [reflexivity|]. split; [reflexivity|]. intros depth. reflexivity.
Qed.

(** ** Evaluations of the subset constructor and of the minimizer *)

(** C3: on A-0->B with A initial and final, the trap state is classified as
    final, although its only member, TRAP, is not a final state of the NFA:
    [separateStates] hands the string "TRAP" to the test of line 316, which
    then asks whether "A" occurs in that string. *)
Theorem generateDFA_trap_classified_final :
  exists (w' : World) (dfa : NFA.t),
    generateDFA 0 2 (worldOf ["A"%string]) nfaTrapFinal (-1) = Some (w', dfa) /\
    NFA.states dfa = [js "A"; js "B"; TRAP] /\
    deref w' (NFA.finalStates dfa) = [js "A"; TRAP] /\
    isFinal [js "A"] TRAP = true /\
    membersOf TRAP = [TRAP] /\
    existsb (JsArray.includes [js "A"]) (membersOf TRAP) = false.
Proof.
  eexists; eexists. split; [reflexivity|]. repeat split; reflexivity.
Qed.

(** C4: on the DFA that [generateDFA] builds for AB-0->A, AB-0->B, A-0->A,
    B-0->B the merge of {A,B} into the initial state AB removes from the
    state list every state whose display name is AB, the initial state
    among them. *)
Theorem minimizeDFA_removes_initial :
  exists (w1 w2 : World) (dfa minimal : NFA.t),
    generateDFA 0 2 (worldOf ["A"; "AB"]%string) nfaInitialAB (-1)
      = Some (w1, dfa) /\
    NFA.states dfa = [js "AB"; js "{A,B}"] /\
    In (NFA.initialState dfa) (NFA.states dfa) /\
    minimizeDFA w1 dfa = (w2, minimal) /\
    NFA.initialState minimal = js "AB" /\
    ~ In (NFA.initialState minimal) (NFA.states minimal).
Proof.
  do 4 eexists. split; [reflexivity|]. split; [reflexivity|].
  split; [left; reflexivity|]. split; [reflexivity|].
  split; [reflexivity|]. simpl. tauto.
Qed.

(** C9, as stated, fails: on S-0->X, S-0->Y, S-1->XY the composite state
    {X,Y} is final and its entry in the final-state list, XY, is a member of
    the state list. *)
Lemma generateDFA_final_entry_collides :
  exists (w' : World) (dfa : NFA.t),
    generateDFA 0 4 (worldOf ["X"%string]) nfaCollision (-1) = Some (w', dfa) /\
    NFA.states dfa = [js "S"; js "{X,Y}"; js "XY"; TRAP] /\
    isMultiState (js "{X,Y}") = true /\
    isFinal [js "X"] (js "{X,Y}") = true /\
    formatDotState (js "{X,Y}") = js "XY" /\
    In (formatDotState (js "{X,Y}")) (deref w' (NFA.finalStates dfa)) /\
    In (formatDotState (js "{X,Y}")) (NFA.states dfa).
Proof.
  eexists; eexists. split; [reflexivity|]. split; [reflexivity|].
  split; [reflexivity|]. split; [reflexivity|]. split; [reflexivity|].
  split; simpl; auto.
Qed.

(** ** Epsilon elimination *)

(** The transitions built by lines 156-180 carry symbols of the alphabet. *)
Lemma nfaClosedTransitions_symbols (depth : nat) (nfa : NFA.t)
    (closed : list Transition.t) :
  nfaClosedTransitions depth nfa = Some closed ->
  Forall (fun t => In (Transition.symbol t) (NFA.alphabet nfa)) closed.
Proof.
  unfold nfaClosedTransitions.
  apply foldM_inv
    with (P := Forall (fun t => In (Transition.symbol t) (NFA.alphabet nfa)));
    [constructor|].
  intros acc state acc' _ Hacc.
  destruct (fetch_E_Closure depth state (NFA.transitions nfa)) as [sc|];
    [|discriminate].
  apply foldM_inv
    with (P := Forall (fun t => In (Transition.symbol t) (NFA.alphabet nfa)));
    [assumption|].
  intros acc1 symbol acc2 Hsym Hacc1.
  destruct (symbolNextStates depth (NFA.transitions nfa) sc symbol);
    [|discriminate].
  intros [= <-]. apply Forall_app. split; [assumption|].
  constructor; [exact Hsym | constructor].
Qed.

Lemma hasLambda_false_iff (nfa : NFA.t) :
  hasLambda nfa = false <->
  forall t, In t (NFA.transitions nfa) ->
            Transition.symbol t <> [] /\ Transition.symbol t <> LAMBDA.
Proof.
  unfold hasLambda. split.
  - intros H t Ht.
    assert (E : JsString.eqb (Transition.symbol t) []
                || JsString.eqb (Transition.symbol t) LAMBDA = false).
    { destruct (_ || _) eqn:E; [|reflexivity].
      rewrite <- H. symmetry. apply existsb_exists. eauto. }
    apply orb_false_iff in E. destruct E as [E1 E2].
    split; apply eqb_neq; assumption.
  - intros H. apply not_true_is_false. intros E.
    apply existsb_exists in E. destruct E as [t [Ht E]].
    destruct (H t Ht) as [H1 H2].
    apply orb_true_iff in E. destruct E as [E | E]; apply eqb_eq in E; auto.
Qed.

(** C7: an automaton without epsilon transitions is returned as it is, the
    store untouched; and once a call has returned on an automaton whose
    alphabet holds no epsilon symbol, a second call returns its result as
    it is. *)
Theorem lambdaClosureNFA_idempotent (w : World) (nfa : NFA.t) :
  (hasLambda nfa = false ->
   forall depth, lambdaClosureNFA depth w nfa = Some (w, nfa)) /\
  ((forall a, In a (NFA.alphabet nfa) -> a <> [] /\ a <> LAMBDA) ->
   forall depth w1 nfa1,
     lambdaClosureNFA depth w nfa = Some (w1, nfa1) ->
     forall depth', lambdaClosureNFA depth' w1 nfa1 = Some (w1, nfa1)).
Proof.
  split.
  - intros H depth. unfold lambdaClosureNFA. rewrite H. reflexivity.
  - intros Halpha depth w1 nfa1 Hrun depth'.
    assert (Hfree : hasLambda nfa1 = false).
    { unfold lambdaClosureNFA in Hrun.
      destruct (hasLambda nfa) eqn:Hl; simpl in Hrun.
      - destruct (nfaClosedTransitions depth nfa) as [closed|] eqn:Hc;
          [|discriminate].
        destruct (fetch_E_Closure depth (NFA.initialState nfa)
                    (NFA.transitions nfa)); [|discriminate].
        injection Hrun as _ <-.
        apply hasLambda_false_iff; simpl. intros t Ht.
        apply nfaClosedTransitions_symbols in Hc.
        rewrite Forall_forall in Hc. apply Halpha, Hc, Ht.
      - injection Hrun as _ <-. assumption. }
    unfold lambdaClosureNFA. rewrite Hfree. reflexivity.
Qed.

(** On A-λ->B, B-1->C: the first call rewrites the transitions, the second
    returns them as they are. *)
Lemma lambdaClosureNFA_idempotent_witness :
  let w := worldOf ["C"%string] in
  let nfa1 :=
    NFA.mk (js "A") 0 [js "A"; js "B"; js "C"] [js "1"]
      [Transition.mk (js "A") [js "C"] (js "1");
       Transition.mk (js "B") [js "C"] (js "1");
       Transition.mk (js "C") [] (js "1")] in
  lambdaClosureNFA 2 w nfaLambda = Some (w, nfa1) /\
  lambdaClosureNFA 2 w nfa1 = Some (w, nfa1) /\
  lambdaClosureNFA 0 w nfaTrapFinal = Some (w, nfaTrapFinal).
Proof.
  intros w nfa1.
  assert (Hrun : lambdaClosureNFA 2 w nfaLambda = Some (w, nfa1))
    by reflexivity.
  split; [exact Hrun|]. split.
  - apply (proj2 (lambdaClosureNFA_idempotent w nfaLambda)) with (depth := 2).
    + simpl. intros a [<- | []]. split; discriminate.
    + exact Hrun.
  - apply (proj1 (lambdaClosureNFA_idempotent w nfaTrapFinal)). reflexivity.
Defined.

(** ** Subset construction: every explored state has a complete row *)

Lemma row_app (s : str) (t1 t2 : list Transition.t) :
  row s (t1 ++ t2) = row s t1 ++ row s t2.
Proof. apply filter_app. Qed.

Lemma row_one_same (s : str) (next : list str) (a : str) :
  row s [Transition.mk s next a] = [Transition.mk s next a].
Proof. unfold row; simpl. rewrite eqb_refl. reflexivity. Qed.

Lemma row_one_other (s s' : str) (next : list str) (a : str) :
  s' <> s -> row s [Transition.mk s' next a] = [].
Proof.
  intros H. unfold row; simpl. apply eqb_neq in H. rewrite H. reflexivity.
Qed.

Lemma row_unknown (s : str) (known : list str) (ts : list Transition.t) :
  (forall t, In t ts -> In (Transition.state t) known) ->
  ~ In s known -> row s ts = [].
Proof.
  intros Hsrc Hs. unfold row.
  induction ts as [|t ts IH]; simpl; [reflexivity|].
  destruct (JsString.eqb (Transition.state t) s) eqn:E.
  - apply eqb_eq in E. exfalso. apply Hs. rewrite <- E.
    apply Hsrc. left; reflexivity.
  - apply IH. intros t' Ht'. apply Hsrc. right; assumption.
Qed.

Lemma row_loops_same (s : str) (sigma : list str) :
  row s (List.map (fun a => Transition.mk s [s] a) sigma)
  = List.map (fun a => Transition.mk s [s] a) sigma.
Proof.
  unfold row. induction sigma as [|a r IH]; simpl; [reflexivity|].
  rewrite eqb_refl. f_equal. exact IH.
Qed.

Lemma row_loops_other (s s' : str) (sigma : list str) :
  s' <> s -> row s (List.map (fun a => Transition.mk s' [s'] a) sigma) = [].
Proof.
  intros H. unfold row. apply eqb_neq in H.
  induction sigma as [|a r IH]; simpl; [reflexivity|].
  rewrite H. exact IH.
Qed.

Lemma map_symbol_loops (s : str) (sigma : list str) :
  List.map Transition.symbol
    (List.map (fun a => Transition.mk s [s] a) sigma) = sigma.
Proof. induction sigma; simpl; congruence. Qed.

Lemma loops_single (s : str) (sigma : list str) :
  Forall singleSuccessor (List.map (fun a => Transition.mk s [s] a) sigma).
Proof.
  apply Forall_forall. intros t Ht. apply in_map_iff in Ht.
  destruct Ht as [a [<- _]]. exists s. reflexivity.
Qed.

(** One symbol more. *)
Lemma exploreSymbol_inv (nfa : NFA.t) (state : str) (members done : list str)
    (e : Exploration) (a : str) :
  symbolInv (NFA.alphabet nfa) state done e ->
  symbolInv (NFA.alphabet nfa) state (done ++ [a])
    (exploreSymbol nfa state members e a).
Proof.
  intros [Hnd Hpop Hst Hkn Hfr Hrow Hrows Hsrc Hsg].
  assert (Hother : forall s, In s (stack e) -> s <> state)
    by (intros s Hs ->; auto).
  unfold exploreSymbol.
  destruct (truthy _) as [c|].
  - (* a successor state *)
    unfold Transition.ofString.
    destruct (JsArray.includes (dfaStates e) c) eqn:Hc.
    + constructor; simpl; try assumption.
      * intros s Hs. rewrite row_app, (Hfr s Hs), row_one_other; auto.
        intros ->. apply (Hother _ Hs). reflexivity.
      * rewrite row_app, row_one_same, map_app, Hrow. reflexivity.
      * intros s Hs Hne. destruct (Hrows s Hs Hne) as [H | H]; [auto|].
        right. unfold explored in *.
        rewrite row_app, row_one_other, app_nil_r; auto.
      * intros t Ht. apply in_app_iff in Ht.
        destruct Ht as [Ht | [<- | []]]; auto.
      * apply Forall_app. split; [assumption|].
        constructor; [exists c; reflexivity | constructor].
    + apply includes_not_In in Hc.
      assert (Hcs : c <> state) by (intros ->; auto).
      constructor; simpl.
      * constructor; [intros H; apply Hc, Hkn, H | assumption].
      * intros [H | H]; auto.
      * apply in_or_app; auto.
      * intros s [<- | Hs]; apply in_or_app; [right; left; reflexivity|].
        left. apply Hkn, Hs.
      * intros s [<- | Hs].
        -- rewrite row_app, (@row_unknown c _ _ Hsrc Hc), row_one_other; auto.
        -- rewrite row_app, (Hfr s Hs), row_one_other; auto.
           intros ->. apply (Hother _ Hs). reflexivity.
      * rewrite row_app, row_one_same, map_app, Hrow. reflexivity.
      * intros s Hs Hne. apply in_app_iff in Hs.
        destruct Hs as [Hs | [<- | []]]; [|left; left; reflexivity].
        destruct (Hrows s Hs Hne) as [H | H]; [left; right; exact H|].
        right. unfold explored in *.
        rewrite row_app, row_one_other, app_nil_r; auto.
      * intros t Ht. apply in_app_iff in Ht. apply in_or_app.
        destruct Ht as [Ht | [<- | []]]; auto.
      * apply Forall_app. split; [assumption|].
        constructor; [exists c; reflexivity | constructor].
  - (* no successor: the trap state *)
    destruct (JsArray.includes (dfaStates e) TRAP) eqn:Hc.
    + constructor; simpl; try assumption.
      * intros s Hs. rewrite row_app, (Hfr s Hs), row_one_other; auto.
        intros ->. apply (Hother _ Hs). reflexivity.
      * rewrite row_app, row_one_same, map_app, Hrow. reflexivity.
      * intros s Hs Hne. destruct (Hrows s Hs Hne) as [H | H]; [auto|].
        right. unfold explored in *.
        rewrite row_app, row_one_other, app_nil_r; auto.
      * intros t Ht. apply in_app_iff in Ht.
        destruct Ht as [Ht | [<- | []]]; auto.
      * apply Forall_app. split; [assumption|].
        constructor; [exists TRAP; reflexivity | constructor].
    + apply includes_not_In in Hc.
      assert (Hcs : TRAP <> state) by (intros E; rewrite E in Hc; auto).
      constructor; simpl.
      * assumption.
      * assumption.
      * apply in_or_app; auto.
      * intros s Hs. apply in_or_app. left. apply Hkn, Hs.
      * intros s Hs.
        assert (Hne : TRAP <> s) by (intros <-; apply Hc, Hkn, Hs).
        rewrite !row_app, (Hfr s Hs), row_loops_other, row_one_other; auto.
        intros ->. apply (Hother _ Hs). reflexivity.
      * rewrite !row_app, row_one_same, !map_app, Hrow,
          row_loops_other by auto.
        reflexivity.
      * intros s Hs Hne. apply in_app_iff in Hs.
        destruct Hs as [Hs | [<- | []]].
        -- destruct (Hrows s Hs Hne) as [H | H]; [auto|].
           right. unfold explored in *.
           assert (Hts : TRAP <> s) by (intros <-; auto).
           rewrite !row_app, row_loops_other, row_one_other by auto.
           simpl. rewrite app_nil_r. exact H.
        -- right. unfold explored.
           rewrite !row_app, (@row_unknown TRAP _ _ Hsrc Hc), row_loops_same,
             row_one_other by auto.
           simpl. rewrite app_nil_r. apply map_symbol_loops.
      * intros t Ht. apply in_or_app. rewrite !in_app_iff in Ht.
        destruct Ht as [Ht | [Ht | [<- | []]]]; auto.
        apply in_map_iff in Ht. destruct Ht as [x [<- _]].
        right; left; reflexivity.
      * apply Forall_app. split; [assumption|].
        apply Forall_app. split; [apply loops_single|].
        constructor; [exists TRAP; reflexivity | constructor].
Qed.

Lemma exploreSymbols_inv (nfa : NFA.t) (state : str) (members : list str)
    (todo done : list str) (e : Exploration) :
  symbolInv (NFA.alphabet nfa) state done e ->
  symbolInv (NFA.alphabet nfa) state (done ++ todo)
    (fold_left (exploreSymbol nfa state members) todo e).
Proof.
  revert done e; induction todo as [|a todo IH]; intros done e H; simpl.
  - rewrite app_nil_r. exact H.
  - replace (done ++ a :: todo) with ((done ++ [a]) ++ todo)
      by (rewrite <- app_assoc; reflexivity).
    apply IH, exploreSymbol_inv, H.
Qed.

Lemma exploreSymbol_counter (nfa : NFA.t) (state : str) (members : list str)
    (e : Exploration) (a : str) :
  stepCounter (exploreSymbol nfa state members e a) = stepCounter e /\
  stepInterrupt (exploreSymbol nfa state members e a) = stepInterrupt e.
Proof.
  unfold exploreSymbol.
  destruct (truthy _); destruct (JsArray.includes _ _); simpl; auto.
Qed.

Lemma exploreSymbols_counter (nfa : NFA.t) (state : str) (members : list str)
    (todo : list str) (e : Exploration) :
  stepCounter (fold_left (exploreSymbol nfa state members) todo e)
    = stepCounter e /\
  stepInterrupt (fold_left (exploreSymbol nfa state members) todo e)
    = stepInterrupt e.
Proof.
  revert e; induction todo as [|a todo IH]; intros e; simpl; [auto|].
  destruct (IH (exploreSymbol nfa state members e a)) as [-> ->].
  apply exploreSymbol_counter.
Qed.

Lemma startExploration_inv (nfa : NFA.t) :
  loopInv (NFA.alphabet nfa) (startExploration nfa).
Proof.
  constructor; simpl.
  - repeat constructor. simpl; tauto.
  - apply incl_refl.
  - reflexivity.
  - intros s Hs. left. exact Hs.
  - intros t [].
  - constructor.
Qed.

(** A pop that is not interrupted, followed by the loop over the alphabet,
    gives the invariant back. *)
Lemma pop_inv (nfa : NFA.t) (e : Exploration) (state : str) (rest : list str)
    (counter : Z) (interrupt : bool) :
  loopInv (NFA.alphabet nfa) e ->
  stack e = state :: rest ->
  loopInv (NFA.alphabet nfa)
    (fold_left (exploreSymbol nfa state (membersOf state)) (NFA.alphabet nfa)
       (mkExploration counter interrupt (dfaStates e) (dfaTransitions e) rest)).
Proof.
  intros [Hnd Hkn Hfr Hrows Hsrc Hsg] Hst. rewrite Hst in *.
  inversion Hnd as [|? ? Hnot Hnd']; subst.
  assert (Hinner : symbolInv (NFA.alphabet nfa) state []
            (mkExploration counter interrupt (dfaStates e) (dfaTransitions e)
               rest)).
  { constructor; simpl; try assumption.
    - apply Hkn. left; reflexivity.
    - intros s Hs. apply Hkn. right; assumption.
    - intros s Hs. apply Hfr. right; assumption.
    - rewrite Hfr by (left; reflexivity). reflexivity.
    - intros s Hs Hne. destruct (Hrows s Hs) as [[E | H] | H]; auto.
      congruence. }
  apply exploreSymbols_inv with (todo := NFA.alphabet nfa) (members := membersOf state) in Hinner.
  simpl in Hinner.
  destruct Hinner as [Hnd1 Hpop1 Hst1 Hkn1 Hfr1 Hrow1 Hrows1 Hsrc1 Hsg1].
  constructor; try assumption.
  intros s Hs.
  destruct (list_eq_dec N.eq_dec s state) as [-> | Hne].
  - right. exact Hrow1.
  - apply Hrows1; assumption.
Qed.

Lemma explore_inv (nfa : NFA.t) (stop : Z) (fuel : nat)
    (e r : Exploration) :
  loopInv (NFA.alphabet nfa) e ->
  explore fuel nfa stop e = Some r ->
  stepInterrupt r = true \/ (loopInv (NFA.alphabet nfa) r /\ stack r = []).
Proof.
  revert e; induction fuel as [|fuel IH]; intros e Hinv Hrun; simpl in Hrun.
  - destruct (stack e) eqn:Hs; [|discriminate].
    injection Hrun as <-. auto.
  - destruct (stack e) as [|state rest] eqn:Hs.
    + injection Hrun as <-. auto.
    + destruct (Z.eqb (stepCounter e + 1) stop).
      * injection Hrun as <-. left; reflexivity.
      * eapply IH; [|exact Hrun]. apply pop_inv; assumption.
Qed.

(** Without a step limit the loop is never interrupted. *)
Lemma explore_unlimited (nfa : NFA.t) (stop : Z) (fuel : nat)
    (e r : Exploration) :
  (stop <= stepCounter e)%Z ->
  stepInterrupt e = false ->
  explore fuel nfa stop e = Some r ->
  stepInterrupt r = false.
Proof.
  revert e; induction fuel as [|fuel IH]; intros e Hc Hi Hrun; simpl in Hrun.
  - destruct (stack e); [|discriminate]. injection Hrun as <-. exact Hi.
  - destruct (stack e) as [|state rest].
    + injection Hrun as <-. exact Hi.
    + destruct (Z.eqb (stepCounter e + 1) stop) eqn:E.
      * apply Z.eqb_eq in E. lia.
      * destruct (exploreSymbols_counter nfa state (membersOf state)
                    (NFA.alphabet nfa)
                    (mkExploration (stepCounter e + 1) (stepInterrupt e)
                       (dfaStates e) (dfaTransitions e) rest)) as [E1 E2].
        eapply IH; [| |exact Hrun].
        -- rewrite E1. simpl. lia.
        -- rewrite E2. exact Hi.
Qed.

(** ** Subset construction: the exploration loop returns *)

Lemma In_listsUpTo (letters l : list str) (n : nat) :
  length l <= n -> incl l letters -> In l (listsUpTo n letters).
Proof.
  revert n; induction l as [|x l IH]; intros n Hlen Hincl.
  - destruct n; simpl; auto.
  - destruct n as [|n]; simpl in *; [lia|].
    right. apply in_flat_map. exists l. split.
    + apply IH; [lia|]. intros y Hy. apply Hincl. right; assumption.
    + apply in_map_iff. exists x. split; [reflexivity|].
      apply Hincl. left; reflexivity.
Qed.

Lemma filter_length_mono {A : Type} (f g : A -> bool) (l : list A) :
  (forall x, In x l -> g x = true -> f x = true) ->
  length (filter g l) <= length (filter f l).
Proof.
  induction l as [|x l IH]; simpl; intros H; [lia|].
  assert (IH' : length (filter g l) <= length (filter f l))
    by (apply IH; intros y Hy; apply H; right; assumption).
  destruct (g x) eqn:G.
  - rewrite (H x (or_introl eq_refl) G). simpl. lia.
  - destruct (f x); simpl; lia.
Qed.

Lemma filter_length_strict {A : Type} (f g : A -> bool) (l : list A) (c : A) :
  (forall x, In x l -> g x = true -> f x = true) ->
  In c l -> f c = true -> g c = false ->
  length (filter g l) < length (filter f l).
Proof.
  induction l as [|x l IH]; simpl; intros H Hin Hf Hg; [contradiction|].
  assert (Hle : length (filter g l) <= length (filter f l))
    by (apply filter_length_mono; intros y Hy; apply H; right; assumption).
  destruct Hin as [-> | Hin].
  - rewrite Hf, Hg. simpl. lia.
  - assert (IH' : length (filter g l) < length (filter f l))
      by (apply IH; auto).
    destruct (g x) eqn:G.
    + rewrite (H x (or_introl eq_refl) G). simpl. lia.
    + destruct (f x); simpl; lia.
Qed.

Lemma undiscovered_mono (nfa : NFA.t) (known known' : list str) :
  incl known known' -> undiscovered nfa known' <= undiscovered nfa known.
Proof.
  intros H. unfold undiscovered. apply filter_length_mono.
  intros x _ Hx. apply negb_true_iff in Hx. apply negb_true_iff.
  apply includes_not_In in Hx. apply includes_not_In. auto.
Qed.

Lemma undiscovered_new (nfa : NFA.t) (known : list str) (c : str) :
  In c (candidates nfa) -> ~ In c known ->
  undiscovered nfa (known ++ [c]) < undiscovered nfa known.
Proof.
  intros Hc Hk. unfold undiscovered. apply filter_length_strict with (c := c).
  - intros x _ Hx. apply negb_true_iff in Hx. apply negb_true_iff.
    apply includes_not_In in Hx. apply includes_not_In.
    intros H. apply Hx. apply in_or_app; auto.
  - exact Hc.
  - apply negb_true_iff, includes_not_In, Hk.
  - apply negb_false_iff, includes_In. apply in_or_app. right. left. reflexivity.
Qed.

Lemma fold_nextStates_In (ts : list Transition.t) (acc : list str) (x : str) :
  In x (fold_left
          (fun acc t => fold_left JsArray.pushNew (Transition.nextStates t) acc)
          ts acc) ->
  In x acc \/ exists t, In t ts /\ In x (Transition.nextStates t).
Proof.
  revert acc; induction ts as [|t ts IH]; intros acc H; simpl in H.
  - auto.
  - apply IH in H. destruct H as [H | [t' [H1 H2]]].
    + apply fold_pushNew_In in H. destruct H as [H | H]; [auto|].
      right. exists t. split; [left; reflexivity | assumption].
    + right. exists t'. split; [right; assumption | assumption].
Qed.

Lemma fold_nextStates_NoDup (ts : list Transition.t) (acc : list str) :
  NoDup acc ->
  NoDup (fold_left
           (fun acc t => fold_left JsArray.pushNew (Transition.nextStates t) acc)
           ts acc).
Proof.
  revert acc; induction ts as [|t ts IH]; intros acc H; simpl.
  - assumption.
  - apply IH, fold_pushNew_NoDup, H.
Qed.

Lemma findNextStates_targets (state symbol : str) (ts : list Transition.t)
    (x : str) :
  In x (findNextStates state symbol ts) -> In x (targets ts).
Proof.
  unfold findNextStates. intros H. apply fold_nextStates_In in H.
  destruct H as [[] | [t [H1 H2]]].
  apply filter_In in H1. destruct H1 as [H1 _].
  unfold targets. apply in_flat_map. exists t. auto.
Qed.

Lemma nextStatesUnion_spec (nfa : NFA.t) (members : list str) (symbol : str) :
  NoDup (nextStatesUnion nfa members symbol) /\
  incl (nextStatesUnion nfa members symbol) (targets (NFA.transitions nfa)).
Proof.
  unfold nextStatesUnion.
  assert (G : forall acc,
             NoDup acc /\ incl acc (targets (NFA.transitions nfa)) ->
             NoDup (fold_left
                      (fun acc s =>
                         fold_left JsArray.pushNew
                           (findNextStates s symbol (NFA.transitions nfa)) acc)
                      members acc) /\
             incl (fold_left
                     (fun acc s =>
                        fold_left JsArray.pushNew
                          (findNextStates s symbol (NFA.transitions nfa)) acc)
                     members acc) (targets (NFA.transitions nfa))).
  { induction members as [|s members IH]; intros acc [H1 H2]; simpl.
    - auto.
    - apply IH. split.
      + apply fold_pushNew_NoDup, H1.
      + intros x Hx. apply fold_pushNew_In in Hx. destruct Hx as [Hx | Hx].
        * apply H2, Hx.
        * eapply findNextStates_targets, Hx. }
  apply G. split; [constructor | intros x []].
Qed.

Lemma truthy_Some (v : option str) (c : str) : truthy v = Some c -> v = Some c.
Proof.
  destruct v as [[|x s]|]; simpl; congruence.
Qed.

(** What [combineStates] makes of a union of successors is a candidate. *)
Lemma combined_candidate (nfa : NFA.t) (members : list str) (symbol c : str) :
  truthy (combineStates
            (List.map Some (nextStatesUnion nfa members symbol))) = Some c ->
  In c (candidates nfa).
Proof.
  intros H. apply truthy_Some in H.
  rewrite combineStates_render, dropNull_Some in H.
  destruct (nextStatesUnion_spec nfa members symbol) as [Hnd Hincl].
  unfold candidates. apply in_flat_map.
  exists (JsArray.sort (nextStatesUnion nfa members symbol)). split.
  - apply In_listsUpTo.
    + rewrite sort_length. apply NoDup_incl_length; assumption.
    + intros x Hx. apply Hincl. apply (proj1 (sort_In _ x)), Hx.
  - rewrite H. left; reflexivity.
Qed.

Lemma exploreSymbol_iterationsLeft (nfa : NFA.t) (state : str)
    (members : list str) (e : Exploration) (a : str) :
  iterationsLeft nfa (exploreSymbol nfa state members e a)
  <= iterationsLeft nfa e.
Proof.
  unfold exploreSymbol, iterationsLeft.
  destruct (truthy _) as [c|] eqn:Hc.
  - destruct (JsArray.includes (dfaStates e) c) eqn:Hk; simpl; [lia|].
    apply includes_not_In in Hk. apply combined_candidate in Hc.
    pose proof (undiscovered_new nfa (dfaStates e) c Hc Hk). lia.
  - destruct (JsArray.includes (dfaStates e) TRAP); simpl; [lia|].
    assert (H : undiscovered nfa (dfaStates e ++ [TRAP])
                <= undiscovered nfa (dfaStates e))
      by (apply undiscovered_mono; intros x Hx; apply in_or_app; auto).
    lia.
Qed.

Lemma exploreSymbols_iterationsLeft (nfa : NFA.t) (state : str)
    (members todo : list str) (e : Exploration) :
  iterationsLeft nfa (fold_left (exploreSymbol nfa state members) todo e)
  <= iterationsLeft nfa e.
Proof.
  revert e; induction todo as [|a todo IH]; intros e; simpl; [lia|].
  etransitivity; [apply IH | apply exploreSymbol_iterationsLeft].
Qed.

(** With as much fuel as there are iterations left, the loop returns. *)
Lemma explore_returns (nfa : NFA.t) (stop : Z) (fuel : nat) (e : Exploration) :
  iterationsLeft nfa e <= fuel ->
  exists r, explore fuel nfa stop e = Some r.
Proof.
  revert e; induction fuel as [|fuel IH]; intros e H; simpl.
  - destruct (stack e) eqn:Hs; [eauto|].
    unfold iterationsLeft in H. rewrite Hs in H. simpl in H. lia.
  - destruct (stack e) as [|state rest] eqn:Hs; [eauto|].
    destruct (Z.eqb (stepCounter e + 1) stop); [eauto|].
    apply IH.
    etransitivity; [apply exploreSymbols_iterationsLeft|].
    unfold iterationsLeft in *. rewrite Hs in H. simpl in *. lia.
Qed.

(** ** Subset construction: the returned automaton *)

Lemma lambdaClosureNFA_frame (depth : nat) (w w1 : World) (nfa nfa1 : NFA.t) :
  lambdaClosureNFA depth w nfa = Some (w1, nfa1) ->
  NFA.initialState nfa1 = NFA.initialState nfa /\
  NFA.finalStates nfa1 = NFA.finalStates nfa /\
  NFA.states nfa1 = NFA.states nfa /\
  NFA.alphabet nfa1 = NFA.alphabet nfa /\
  LAST_COMPLETED_STEP_COUNT w1 = LAST_COMPLETED_STEP_COUNT w.
Proof.
  unfold lambdaClosureNFA. destruct (hasLambda nfa); simpl.
  - destruct (nfaClosedTransitions depth nfa); [|discriminate].
    destruct (fetch_E_Closure depth (NFA.initialState nfa)
                (NFA.transitions nfa)); [|discriminate].
    destruct (existsb _ _); intros [= <- <-]; simpl; auto.
  - intros [= <- <-]. auto.
Qed.

(** What [generateDFA] returns, in terms of the closure stage and of the
    exploration loop. *)
Lemma generateDFA_inv (depth fuel : nat) (w w' : World) (nfa dfa : NFA.t)
    (stop : Z) :
  generateDFA depth fuel w nfa stop = Some (w', dfa) ->
  exists w1 nfa1 e,
    lambdaClosureNFA depth w nfa = Some (w1, nfa1) /\
    explore fuel nfa1 stop (startExploration nfa1) = Some e /\
    NFA.initialState dfa = NFA.initialState nfa1 /\
    NFA.states dfa = dfaStates e /\
    NFA.alphabet dfa = NFA.alphabet nfa1 /\
    NFA.transitions dfa = dfaTransitions e /\
    deref w' (NFA.finalStates dfa)
      = List.map formatDotState
          (filter (isFinal (deref w1 (NFA.finalStates nfa1))) (dfaStates e)) /\
    LAST_COMPLETED_STEP_COUNT w'
      = (if stepInterrupt e then LAST_COMPLETED_STEP_COUNT w1
         else stepCounter e).
Proof.
  unfold generateDFA.
  destruct (lambdaClosureNFA depth w nfa) as [[w1 nfa1]|] eqn:Hl;
    [|discriminate].
  destruct (explore fuel nfa1 stop (startExploration nfa1)) as [e|] eqn:He;
    [|discriminate].
  unfold alloc. intros [= <- <-]. exists w1, nfa1, e.
  split; [reflexivity|]. split; [exact He|].
  do 4 (split; [reflexivity|]). split.
  - unfold deref; simpl.
    replace (cells (if stepInterrupt e then w1
                    else mkWorld (cells w1) (stepCounter e)))
      with (cells w1) by (destruct (stepInterrupt e); reflexivity).
    apply nth_middle.
  - simpl. destruct (stepInterrupt e); reflexivity.
Qed.

(** Whenever the closure stage returns, [generateDFA] returns. *)
Lemma generateDFA_returns (depth : nat) (w w1 : World) (nfa nfa1 : NFA.t)
    (stop : Z) :
  lambdaClosureNFA depth w nfa = Some (w1, nfa1) ->
  exists fuel w' dfa, generateDFA depth fuel w nfa stop = Some (w', dfa).
Proof.
  intros H.
  destruct (explore_returns nfa1 stop (startExploration nfa1) (le_n _))
    as [e He].
  exists (iterationsLeft nfa1 (startExploration nfa1)).
  unfold generateDFA. rewrite H, He. unfold alloc. eauto.
Qed.

(** In particular it returns on every automaton without epsilon
    transitions. *)
Lemma generateDFA_returns_epsilon_free (w : World) (nfa : NFA.t) (stop : Z) :
  hasLambda nfa = false ->
  exists fuel w' dfa, generateDFA 0 fuel w nfa stop = Some (w', dfa).
Proof.
  intros H. apply generateDFA_returns with (w1 := w) (nfa1 := nfa).
  unfold lambdaClosureNFA. rewrite H. reflexivity.
Qed.

Lemma filter_andb {A : Type} (f g : A -> bool) (l : list A) :
  filter (fun x => f x && g x) l = filter g (filter f l).
Proof.
  induction l as [|x l IH]; simpl; [reflexivity|].
  destruct (f x); simpl; [destruct (g x)|]; rewrite IH; reflexivity.
Qed.

Lemma filter_none {A : Type} (f : A -> bool) (l : list A) :
  (forall x, In x l -> f x = false) -> filter f l = [].
Proof.
  induction l as [|x l IH]; simpl; intros H; [reflexivity|].
  rewrite (H x (or_introl eq_refl)). apply IH. auto.
Qed.

(** In a row whose symbols are pairwise distinct, one transition carries
    a given symbol of the row. *)
Lemma unique_symbol (ts : list Transition.t) (a : str) :
  NoDup (List.map Transition.symbol ts) ->
  In a (List.map Transition.symbol ts) ->
  exists t, In t ts /\
            filter (fun t => JsString.eqb (Transition.symbol t) a) ts = [t].
Proof.
  induction ts as [|t ts IH]; simpl; intros Hnd Hin; [contradiction|].
  inversion Hnd as [|? ? Hnot Hnd']; subst.
  destruct (JsString.eqb (Transition.symbol t) a) eqn:E.
  - apply eqb_eq in E. exists t. split; [left; reflexivity|].
    f_equal. apply filter_none. intros t' Ht'. apply eqb_neq.
    intros E'. apply Hnot. rewrite E, <- E'. apply in_map, Ht'.
  - apply eqb_neq in E. destruct Hin as [Hin | Hin]; [contradiction|].
    destruct (IH Hnd' Hin) as [t' [H1 H2]].
    exists t'. split; [right; assumption | assumption].
Qed.

(** An explored state has, on each symbol of a duplicate-free alphabet, one
    transition and one successor. *)
Lemma explored_row (sigma : list str) (s a : str) (ts : list Transition.t) :
  NoDup sigma -> In a sigma ->
  explored sigma s ts -> Forall singleSuccessor ts ->
  (exists t,
      filter (fun t => JsString.eqb (Transition.state t) s
                       && JsString.eqb (Transition.symbol t) a) ts = [t]) /\
  (exists n, findNextStates s a ts = [n]).
Proof.
  intros Hnd Hin Hex Hsg. unfold explored in Hex.
  destruct (@unique_symbol (row s ts) a) as [t [Ht Hf]];
    [rewrite Hex; assumption | rewrite Hex; assumption |].
  assert (E : filter (fun t => JsString.eqb (Transition.state t) s
                               && JsString.eqb (Transition.symbol t) a) ts
              = [t])
    by (rewrite filter_andb; exact Hf).
  split; [exists t; exact E|].
  unfold findNextStates. rewrite E. simpl.
  apply filter_In in Ht. destruct Ht as [Ht _].
  rewrite Forall_forall in Hsg. destruct (Hsg t Ht) as [n ->].
  exists n. reflexivity.
Qed.

(** C1: on an NFA whose alphabet has no repeated symbol, [generateDFA]
    without a step limit returns whenever its closure stage does, and in
    every automaton it returns each state of the state list has, on each
    symbol of the alphabet, exactly one transition in the transition list
    and exactly one successor by [findNextStates]. *)
Theorem generateDFA_total_deterministic (w : World) (nfa : NFA.t) :
  NoDup (NFA.alphabet nfa) ->
  (forall depth w1 nfa1,
      lambdaClosureNFA depth w nfa = Some (w1, nfa1) ->
      exists fuel w' dfa,
        generateDFA depth fuel w nfa (-1) = Some (w', dfa)) /\
  (forall depth fuel w' dfa,
      generateDFA depth fuel w nfa (-1) = Some (w', dfa) ->
      forall s a,
        In s (NFA.states dfa) -> In a (NFA.alphabet dfa) ->
        (exists t,
            filter (fun t => JsString.eqb (Transition.state t) s
                             && JsString.eqb (Transition.symbol t) a)
              (NFA.transitions dfa) = [t]) /\
        (exists n, findNextStates s a (NFA.transitions dfa) = [n])).
Proof.
  intros Hnd. split.
  - intros depth w1 nfa1 H. eapply generateDFA_returns, H.
  - intros depth fuel w' dfa Hrun s a Hs Ha.
    destruct (generateDFA_inv _ _ _ _ _ Hrun)
      as [w1 [nfa1 [e [Hl [He [_ [Hst [Hal [Htr _]]]]]]]]].
    destruct (lambdaClosureNFA_frame _ _ _ Hl) as [_ [_ [_ [Hal1 _]]]].
    rewrite Hst in Hs. rewrite Hal in Ha. rewrite Htr.
    assert (Hni : stepInterrupt e = false).
    { eapply explore_unlimited; [| |exact He]; simpl; [lia | reflexivity]. }
    destruct (explore_inv _ _ _ (startExploration_inv nfa1) He)
      as [Hi | [Hinv Hempty]]; [congruence|].
    destruct Hinv as [_ _ _ Hrows _ Hsg].
    destruct (Hrows s Hs) as [H | H]; [rewrite Hempty in H; contradiction|].
    apply explored_row with (sigma := NFA.alphabet nfa1); try assumption.
    rewrite Hal1. exact Hnd.
Qed.

(** On A-0->A, A-0->B, A-1->A, B-1->C: the composite state {A,B} is
    discovered and has one successor on 1. *)
Lemma generateDFA_total_deterministic_witness :
  NoDup (NFA.alphabet nfaSubset) /\
  generateDFA 0 3 (worldOf ["C"%string]) nfaSubset (-1)
    = Some (worldSubset, dfaSubset) /\
  (exists t,
      filter (fun t => JsString.eqb (Transition.state t) (js "{A,B}")
                       && JsString.eqb (Transition.symbol t) (js "1"))
        (NFA.transitions dfaSubset) = [t]) /\
  (exists n,
      findNextStates (js "{A,B}") (js "1") (NFA.transitions dfaSubset) = [n]).
Proof.
  assert (Hnd : NoDup (NFA.alphabet nfaSubset)).
  { simpl. repeat constructor; simpl; intuition discriminate. }
  assert (Hrun : generateDFA 0 3 (worldOf ["C"%string]) nfaSubset (-1)
                 = Some (worldSubset, dfaSubset)) by reflexivity.
  split; [exact Hnd|]. split; [exact Hrun|].
  destruct (generateDFA_total_deterministic (worldOf ["C"%string]) nfaSubset
              Hnd) as [_ Hrows].
  apply (Hrows 0 3 worldSubset dfaSubset Hrun (js "{A,B}") (js "1"));
    simpl; auto.
Defined.

Lemma explore_outcome (nfa : NFA.t) (stop : Z) (fuel : nat)
    (e r : Exploration) :
  stepInterrupt e = false ->
  explore fuel nfa stop e = Some r ->
  (stepInterrupt r = true /\ stepCounter r = stop) \/
  (stepInterrupt r = false /\ stack r = []).
Proof.
  revert e; induction fuel as [|fuel IH]; intros e Hi Hrun; simpl in Hrun.
  - destruct (stack e) eqn:Hs; [|discriminate]. injection Hrun as <-. auto.
  - destruct (stack e) as [|state rest] eqn:Hs.
    + injection Hrun as <-. auto.
    + destruct (Z.eqb (stepCounter e + 1) stop) eqn:E.
      * apply Z.eqb_eq in E. injection Hrun as <-. left. simpl. auto.
      * eapply IH; [|exact Hrun].
        destruct (exploreSymbols_counter nfa state (membersOf state)
                    (NFA.alphabet nfa)
                    (mkExploration (stepCounter e + 1) (stepInterrupt e)
                       (dfaStates e) (dfaTransitions e) rest)) as [_ ->].
        exact Hi.
Qed.

(** C8: when the incremented counter equals the limit, the loop returns at
    once, with the states and the transitions it had and the interruption
    recorded; [generateDFA] returns whenever its closure stage does; and
    when it returns, [LAST_COMPLETED_STEP_COUNT] is what it was if the loop
    was interrupted, and the final value of the counter if the loop ran
    until the stack was empty. *)
Theorem generateDFA_step_record (w : World) (nfa : NFA.t) (stop : Z) :
  (forall nfa1 fuel e state rest,
      stack e = state :: rest ->
      (stepCounter e + 1)%Z = stop ->
      explore (S fuel) nfa1 stop e
      = Some (mkExploration stop true (dfaStates e) (dfaTransitions e) rest)) /\
  (forall depth w1 nfa1,
      lambdaClosureNFA depth w nfa = Some (w1, nfa1) ->
      exists fuel w' dfa, generateDFA depth fuel w nfa stop = Some (w', dfa)) /\
  (forall depth fuel w' dfa,
      generateDFA depth fuel w nfa stop = Some (w', dfa) ->
      exists w1 nfa1 e,
        lambdaClosureNFA depth w nfa = Some (w1, nfa1) /\
        explore fuel nfa1 stop (startExploration nfa1) = Some e /\
        (stepInterrupt e = true ->
         stepCounter e = stop /\
         LAST_COMPLETED_STEP_COUNT w' = LAST_COMPLETED_STEP_COUNT w) /\
        (stepInterrupt e = false ->
         stack e = [] /\ LAST_COMPLETED_STEP_COUNT w' = stepCounter e)).
Proof.
  split; [|split].
  - intros nfa1 fuel e state rest Hs Hc. simpl. rewrite Hs.
    apply Z.eqb_eq in Hc. rewrite Hc. apply Z.eqb_eq in Hc. rewrite Hc.
    reflexivity.
  - intros depth w1 nfa1 H. eapply generateDFA_returns, H.
  - intros depth fuel w' dfa Hrun.
    destruct (generateDFA_inv _ _ _ _ _ Hrun)
      as [w1 [nfa1 [e [Hl [He [_ [_ [_ [_ [_ Hlast]]]]]]]]]].
    destruct (lambdaClosureNFA_frame _ _ _ Hl) as [_ [_ [_ [_ Hw]]]].
    exists w1, nfa1, e. split; [exact Hl|]. split; [exact He|].
    destruct (explore_outcome _ _ _ _ (eq_refl : stepInterrupt (startExploration nfa1) = false) He)
      as [[Hi Hc] | [Hi Hs]]; rewrite Hi in Hlast; split; intros Hi';
      try congruence; split; congruence.
Qed.

Lemma removelast_length_le {A : Type} (l : list A) :
  length (removelast l) <= length l.
Proof.
  induction l as [|x [|y l] IH]; simpl in *; lia.
Qed.

Lemma formatDotState_multi (s : str) :
  isMultiState s = true -> formatDotState s <> s.
Proof.
  intros H E. assert (L : length (formatDotState s) = length s) by congruence.
  unfold formatDotState in L. rewrite H in L.
  unfold JsString.removeCommas, JsString.inner in L.
  pose proof (List.filter_length_le (fun c => negb (N.eqb c 44))
                (removelast (tl s)))
    as L1.
  pose proof (removelast_length_le (tl s)) as L2.
  destruct s as [|c s]; [discriminate|]. simpl in *. lia.
Qed.

(** C9, as amended: the final-state list of a returned DFA holds, in the
    order of the state list, the display names ([formatDotState]) of the
    states classified as final, not their identifiers; the display name of
    a composite state differs from the identifier of that state (it may be
    the identifier of another state). *)
Theorem generateDFA_finalStates_formatted (depth fuel : nat) (w w' : World)
    (nfa dfa : NFA.t) (stop : Z) :
  generateDFA depth fuel w nfa stop = Some (w', dfa) ->
  (exists w1 nfa1,
      lambdaClosureNFA depth w nfa = Some (w1, nfa1) /\
      deref w' (NFA.finalStates dfa)
      = List.map formatDotState
          (filter (isFinal (deref w1 (NFA.finalStates nfa1)))
             (NFA.states dfa))) /\
  (forall s, In s (NFA.states dfa) -> isMultiState s = true ->
             formatDotState s <> s).
Proof.
  intros Hrun.
  destruct (generateDFA_inv _ _ _ _ _ Hrun)
    as [w1 [nfa1 [e [Hl [_ [_ [Hst [_ [_ [Hf _]]]]]]]]]].
  split.
  - exists w1, nfa1. split; [exact Hl|]. rewrite Hst. exact Hf.
  - intros s _ Hm. apply formatDotState_multi, Hm.
Qed.

(** On A-0->A, A-0->B, A-1->A, B-1->C with C final: {A,C} is the final
    state and the final-state list holds AC. *)
Lemma generateDFA_finalStates_formatted_witness :
  generateDFA 0 3 (worldOf ["C"%string]) nfaSubset (-1)
    = Some (worldSubset, dfaSubset) /\
  deref worldSubset (NFA.finalStates dfaSubset) = [js "AC"] /\
  formatDotState (js "{A,C}") <> js "{A,C}".
Proof.
  assert (Hrun : generateDFA 0 3 (worldOf ["C"%string]) nfaSubset (-1)
                 = Some (worldSubset, dfaSubset)) by reflexivity.
  split; [exact Hrun|].
  destruct (generateDFA_finalStates_formatted _ _ _ _ _ Hrun)
    as [[w1 [nfa1 [Hl Hf]]] Hne].
  split.
  - injection Hl as <- <-. exact Hf.
  - apply Hne; [simpl; auto | reflexivity].
Defined.

(** On [nfaSubset] from a world whose record is 7: with the limit 2 the
    loop stops at the second pop and the record stays 7; without a limit
    the record becomes 3, the number of states explored. *)
Lemma generateDFA_step_record_witness :
  generateDFA 0 3 worldBefore nfaSubset 2
    = Some (worldInterrupted, dfaInterrupted) /\
  LAST_COMPLETED_STEP_COUNT worldInterrupted
    = LAST_COMPLETED_STEP_COUNT worldBefore /\
  generateDFA 0 3 worldBefore nfaSubset (-1) = Some (worldSubset, dfaSubset) /\
  LAST_COMPLETED_STEP_COUNT worldSubset = 3%Z.
Proof.
  assert (Hrun : generateDFA 0 3 worldBefore nfaSubset 2
                 = Some (worldInterrupted, dfaInterrupted)) by reflexivity.
  assert (Hrun' : generateDFA 0 3 worldBefore nfaSubset (-1)
                  = Some (worldSubset, dfaSubset)) by reflexivity.
  split; [exact Hrun|]. split; [|split; [exact Hrun'|]].
  - destruct (proj2 (proj2 (generateDFA_step_record worldBefore nfaSubset 2))
                _ _ _ _ Hrun) as [w1 [nfa1 [e [Hl [He [Hint _]]]]]].
    injection Hl as <- <-. vm_compute in He. injection He as <-.
    apply (Hint eq_refl).
  - destruct (proj2 (proj2 (generateDFA_step_record worldBefore nfaSubset
                              (-1))) _ _ _ _ Hrun')
      as [w1 [nfa1 [e [Hl [He [_ Hfin]]]]]].
    injection Hl as <- <-. vm_compute in He. injection He as <-.
    apply (Hfin eq_refl).
Defined.

(** ** Further facts *)

Lemma epsilonCycle_no_return (depth : nat) :
  fetch_E_Closure depth (js "A") epsilonCycle = None /\
  fetch_E_Closure depth (js "B") epsilonCycle = None.
Proof.
  induction depth as [|d [IHA IHB]]; [split; reflexivity|].
  split; simpl.
  - change (fetch_E_Closure d [66%N] epsilonCycle) with
      (fetch_E_Closure d (js "B") epsilonCycle).
    rewrite IHB. reflexivity.
  - change (fetch_E_Closure d [65%N] epsilonCycle) with
      (fetch_E_Closure d (js "A") epsilonCycle).
    rewrite IHA. reflexivity.
Qed.

(** The closure stage, and with it [generateDFA], never returns on an
    automaton with the epsilon cycle. *)
Lemma generateDFA_cycle_diverges (depth fuel : nat) (w : World) (stop : Z) :
  lambdaClosureNFA depth w nfaCycle = None /\
  generateDFA depth fuel w nfaCycle stop = None.
Proof.
  assert (H : lambdaClosureNFA depth w nfaCycle = None).
  { unfold lambdaClosureNFA.
    change (hasLambda nfaCycle) with true. cbv beta iota delta [negb].
    unfold nfaClosedTransitions.
    change (NFA.states nfaCycle) with [js "A"; js "B"; js "C"].
    change (NFA.transitions nfaCycle) with epsilonCycle.
    unfold foldM at 1.
    rewrite (proj1 (epsilonCycle_no_return depth)). reflexivity. }
  split; [exact H|]. unfold generateDFA. rewrite H. reflexivity.
Qed.

(** [minimizeDFA] also deletes the trap state when the state it removes
    has the display name TRAP. *)
Lemma minimizeDFA_removes_trap :
  In TRAP (NFA.states dfaTrapName) /\
  NFA.states (snd (minimizeDFA (worldOf []) dfaTrapName)) = [js "q"; js "Z"].
Proof. split; [simpl; auto | reflexivity]. Qed.

Lemma isMultiState_brackets (x : str) :
  isMultiState ([123%N] ++ x ++ [125%N]) = true.
Proof.
  unfold isMultiState, JsString.startsWith, JsString.endsWith. simpl.
  rewrite rev_app_distr. reflexivity.
Qed.

Lemma inner_brackets (x : str) : JsString.inner ([123%N] ++ x ++ [125%N]) = x.
Proof. unfold JsString.inner. simpl. apply removelast_last. Qed.

Lemma splitFrom_app (x cur rest : str) :
  ~ In 44%N x ->
  JsString.splitFrom cur (x ++ rest) = JsString.splitFrom (cur ++ x) rest.
Proof.
  revert cur; induction x as [|c x IH]; intros cur H; simpl.
  - rewrite app_nil_r. reflexivity.
  - destruct (N.eqb c 44) eqn:E.
    + apply N.eqb_eq in E. exfalso. apply H. left. exact E.
    + rewrite IH by (intros Hx; apply H; right; exact Hx).
      rewrite <- app_assoc. reflexivity.
Qed.

(** Splitting at the commas undoes the joining of comma-free members. *)
Lemma splitComma_join (members : list str) :
  members <> [] ->
  (forall x, In x members -> ~ In 44%N x) ->
  JsString.splitComma (JsArray.join members) = members.
Proof.
  unfold JsString.splitComma.
  induction members as [|x [|y l] IH]; intros Hne Hc; [congruence| |].
  - simpl. rewrite <- (app_nil_r x) at 1.
    rewrite splitFrom_app by (apply Hc; left; reflexivity). reflexivity.
  - change (JsArray.join (x :: y :: l))
      with (x ++ 44%N :: JsArray.join (y :: l)).
    rewrite splitFrom_app by (apply Hc; left; reflexivity).
    simpl JsString.splitFrom at 1. cbv beta iota. f_equal.
    apply IH; [discriminate|]. intros z Hz. apply Hc. right; exact Hz.
Qed.

(** On a composite identifier built by [combineStates] from two or more
    comma-free members, [separateStates] returns the sorted members. *)
Lemma separateStates_combineStates (members : list str) :
  2 <= length members ->
  (forall x, In x members -> ~ In 44%N x) ->
  exists c,
    combineStates (List.map Some members) = Some c /\
    separateStates c = IsArray (JsArray.sort members).
Proof.
  intros Hlen Hc. rewrite combineStates_render, dropNull_Some.
  pose proof (sort_length members) as HL.
  assert (Hs : forall x, In x (JsArray.sort members) -> ~ In 44%N x)
    by (intros x Hx; apply Hc, sort_In, Hx).
  destruct (JsArray.sort members) as [|a [|b l]] eqn:E; simpl in HL; try lia.
  unfold render. eexists. split; [reflexivity|].
  unfold separateStates. rewrite isMultiState_brackets, inner_brackets.
  rewrite splitComma_join; [reflexivity | discriminate | exact Hs].
Qed.

(** On {A,B}. *)
Lemma separateStates_combineStates_example :
  combineStates [Some (js "B"); Some (js "A")] = Some (js "{A,B}") /\
  separateStates (js "{A,B}") = IsArray [js "A"; js "B"].
Proof. split; reflexivity. Qed.

(** * Further properties of the engine *)

(** ** Transition index and array comparison *)

(** X1: [arraysEqual] holds exactly of two arrays with the same strings at the
    same positions. *)
Theorem arraysEqual_iff (a b : list str) : arraysEqual a b = true <-> a = b.
Proof.
  unfold arraysEqual. revert b; induction a as [|x a IH]; intros [|y b]; simpl;
    try (split; [discriminate | congruence]); [tauto|].
  split.
  - intros H. apply andb_true_iff in H. destruct H as [Hl H].
    apply andb_true_iff in H. destruct H as [Hxy H].
    apply eqb_eq in Hxy. subst y. f_equal. apply IH.
    apply andb_true_iff. split; assumption.
  - intros [= -> ->]. destruct (IH b) as [_ H]. specialize (H eq_refl).
    apply andb_true_iff in H. destruct H as [Hl H].
    rewrite Hl, H, eqb_refl. reflexivity.
Qed.

Lemma fold_nextStates_In_rev (ts : list Transition.t) (acc : list str)
    (x : str) :
  In x acc \/ (exists t, In t ts /\ In x (Transition.nextStates t)) ->
  In x (fold_left
          (fun acc t => fold_left JsArray.pushNew (Transition.nextStates t) acc)
          ts acc).
Proof.
  revert acc; induction ts as [|t ts IH]; intros acc H; simpl.
  - destruct H as [H | [t [[] _]]]. exact H.
  - apply IH. destruct H as [H | [t' [[<- | Ht'] Hx]]].
    + left. apply fold_pushNew_In. auto.
    + left. apply fold_pushNew_In. auto.
    + right. exists t'. auto.
Qed.

(** X2: [findNextStates] returns, without repetition, exactly the successors
    listed by the transitions with the given source and symbol; transitions
    sharing source and symbol are united. *)
Theorem findNextStates_spec (state symbol : str)
    (transitions : list Transition.t) :
  NoDup (findNextStates state symbol transitions) /\
  forall x,
    In x (findNextStates state symbol transitions) <->
    exists t, In t transitions /\ Transition.state t = state /\
              Transition.symbol t = symbol /\ In x (Transition.nextStates t).
Proof.
  unfold findNextStates. split.
  - apply fold_nextStates_NoDup. constructor.
  - intros x. split.
    + intros H. apply fold_nextStates_In in H.
      destruct H as [[] | [t [Ht Hx]]].
      apply filter_In in Ht. destruct Ht as [Ht E].
      apply andb_true_iff in E. destruct E as [E1 E2].
      apply eqb_eq in E1. apply eqb_eq in E2. exists t. auto.
    + intros [t [Ht [E1 [E2 Hx]]]]. apply fold_nextStates_In_rev. right.
      exists t. split; [|exact Hx]. apply filter_In. split; [exact Ht|].
      rewrite E1, E2, !eqb_refl. reflexivity.
Qed.

(** ** State-set codec *)

Lemma dropNull_Permutation (l l' : list (option str)) :
  Permutation l l' -> Permutation (dropNull l) (dropNull l').
Proof.
  induction 1 as [| [x|] l l' _ IH | [x|] [y|] l | l1 l2 l3 _ IH1 _ IH2];
    simpl; auto.
  - constructor.
  - eapply Permutation_trans; eassumption.
Qed.

(** X3: The identifier built by [combineStates] does not depend on the order in
    which the states are supplied. *)
Theorem combineStates_order_independent (states states' : list (option str)) :
  Permutation states states' -> combineStates states = combineStates states'.
Proof.
  intros H. rewrite !combineStates_render. f_equal.
  apply sorted_Permutation_unique; try apply sort_sorted.
  rewrite !sort_Permutation. apply dropNull_Permutation, H.
Qed.

Lemma combineStates_order_independent_witness :
  combineStates [Some (js "B"); None; Some (js "A")]
  = combineStates [Some (js "A"); Some (js "B"); None].
Proof.
  apply combineStates_order_independent.
  apply Permutation_sym. apply perm_trans with
    (l' := [Some (js "B"); Some (js "A"); None]).
  - apply perm_swap.
  - apply perm_skip. apply perm_swap.
Defined.

Lemma join_injective (a b : list str) :
  a <> [] -> b <> [] ->
  (forall x, In x a -> ~ In 44%N x) ->
  (forall x, In x b -> ~ In 44%N x) ->
  JsArray.join a = JsArray.join b -> a = b.
Proof.
  intros Ha Hb Hca Hcb E.
  rewrite <- (splitComma_join Ha Hca), <- (splitComma_join Hb Hcb), E.
  reflexivity.
Qed.

Lemma render_injective (a b : list str) :
  (forall x, In x a -> ~ In 44%N x /\ ~ In 123%N x) ->
  (forall x, In x b -> ~ In 44%N x /\ ~ In 123%N x) ->
  render a = render b -> a = b.
Proof.
  intros Ha Hb.
  assert (Hbrace : forall (l : list str) (s j : str),
             (forall x, In x l -> ~ In 44%N x /\ ~ In 123%N x) ->
             In s l -> s <> [123%N] ++ j ++ [125%N]).
  { intros l s j Hl Hs E. apply (proj2 (Hl s Hs)). rewrite E. left; reflexivity. }
  destruct a as [|a1 [|a2 a]]; destruct b as [|b1 [|b2 b]]; simpl;
    try discriminate; try reflexivity.
  - intros [= ->]; reflexivity.
  - intros [= E]. exfalso.
    eapply (Hbrace [a1] a1); [exact Ha | left; reflexivity | exact E].
  - intros [= E]. exfalso. symmetry in E.
    eapply (Hbrace [b1] b1); [exact Hb | left; reflexivity | exact E].
  - intros [= E]. apply app_inv_tail in E.
    apply (@join_injective (a1 :: a2 :: a) (b1 :: b2 :: b));
      try discriminate; try exact E.
    + intros x Hx. apply (Ha x Hx).
    + intros x Hx. apply (Hb x Hx).
Qed.

(** X4: When no state name holds a comma or an opening bracket (the form
    refuses the bracket), two arrays of states get the same identifier only
    if they hold the same states, each as often: distinct sets of states
    never share an identifier. *)
Theorem combineStates_injective (states states' : list str) :
  (forall x, In x states -> ~ In 44%N x /\ ~ In 123%N x) ->
  (forall x, In x states' -> ~ In 44%N x /\ ~ In 123%N x) ->
  combineStates (List.map Some states) = combineStates (List.map Some states') ->
  Permutation states states'.
Proof.
  intros H H' E. rewrite !combineStates_render, !dropNull_Some in E.
  apply render_injective in E.
  - rewrite <- (sort_Permutation states), <- (sort_Permutation states'), E.
    reflexivity.
  - intros x Hx. apply H, sort_In, Hx.
  - intros x Hx. apply H', sort_In, Hx.
Qed.

Lemma combineStates_injective_witness :
  Permutation [js "B"; js "A"] [js "A"; js "B"].
Proof.
  apply combineStates_injective.
  - simpl. intros x [<- | [<- | []]]; simpl; intuition discriminate.
  - simpl. intros x [<- | [<- | []]]; simpl; intuition discriminate.
  - reflexivity.
Defined.

Lemma removeCommas_app (a b : str) :
  JsString.removeCommas (a ++ b)
  = JsString.removeCommas a ++ JsString.removeCommas b.
Proof. apply filter_app. Qed.

Lemma removeCommas_free (a : str) :
  ~ In 44%N a -> JsString.removeCommas a = a.
Proof.
  unfold JsString.removeCommas. induction a as [|c a IH]; simpl; intros H.
  - reflexivity.
  - destruct (N.eqb c 44) eqn:E.
    + apply N.eqb_eq in E. exfalso. apply H. left. exact E.
    + simpl. f_equal. apply IH. intros Hx. apply H. right. exact Hx.
Qed.

Lemma removeCommas_join (members : list str) :
  (forall x, In x members -> ~ In 44%N x) ->
  JsString.removeCommas (JsArray.join members) = List.concat members.
Proof.
  induction members as [|x [|y l] IH]; intros H.
  - reflexivity.
  - simpl. rewrite app_nil_r. apply removeCommas_free, H. left; reflexivity.
  - change (JsArray.join (x :: y :: l))
      with (x ++ [44%N] ++ JsArray.join (y :: l)).
    rewrite !removeCommas_app, IH by (intros z Hz; apply H; right; exact Hz).
    rewrite removeCommas_free by (apply H; left; reflexivity).
    reflexivity.
Qed.

(** X6: The display name of a composite identifier built from two or more
    comma-free names is the concatenation of the sorted names, and the
    display name of a name that is not bracketed is that name. *)
Theorem formatDotState_combineStates (members : list str) :
  (forall s, isMultiState s = false -> formatDotState s = s) /\
  (2 <= length members ->
   (forall x, In x members -> ~ In 44%N x) ->
   exists c,
     combineStates (List.map Some members) = Some c /\
     formatDotState c = List.concat (JsArray.sort members)).
Proof.
  split.
  - intros s H. unfold formatDotState. rewrite H. reflexivity.
  - intros Hlen Hc. rewrite combineStates_render, dropNull_Some.
    pose proof (sort_length members) as HL.
    assert (Hs : forall x, In x (JsArray.sort members) -> ~ In 44%N x)
      by (intros x Hx; apply Hc, sort_In, Hx).
    destruct (JsArray.sort members) as [|a [|b l]] eqn:E; simpl in HL; try lia.
    unfold render. eexists. split; [reflexivity|].
    unfold formatDotState. rewrite isMultiState_brackets, inner_brackets.
    apply removeCommas_join, Hs.
Qed.

Lemma formatDotState_combineStates_witness :
  formatDotState (js "q0") = js "q0" /\
  exists c,
    combineStates (List.map Some [js "q1"; js "q0"]) = Some c /\
    formatDotState c = List.concat (JsArray.sort [js "q1"; js "q0"]).
Proof.
  destruct (formatDotState_combineStates [js "q1"; js "q0"]) as [H1 H2].
  split.
  - apply H1. reflexivity.
  - apply H2.
    + simpl. lia.
    + simpl. intros x [<- | [<- | []]]; simpl; intuition discriminate.
Defined.

(** ** Closure engine: what the closure holds and when it returns *)

Lemma epsilonReach_trans (ts : list Transition.t) (s x y : str) :
  epsilonReach ts s x -> epsilonReach ts x y -> epsilonReach ts s y.
Proof.
  intros H1 H2. induction H2 as [|y z _ IH Hstep].
  - exact H1.
  - eapply reach_next; eassumption.
Qed.

(** A loop whose body only adds to the array. *)
Lemma foldM_grow {B : Type} (f : list str -> B -> option (list str))
    (R : B -> list str -> Prop) (l : list B) (a r : list str) :
  (forall a x a', In x l -> f a x = Some a' -> incl a a' /\ R x a') ->
  (forall x a a', R x a -> incl a a' -> R x a') ->
  foldM f l a = Some r -> incl a r /\ forall x, In x l -> R x r.
Proof.
  intros Hstep Hmono. revert a; induction l as [|x l IH]; simpl; intros a Hr.
  - injection Hr as <-. split; [apply incl_refl | intros x []].
  - destruct (f a x) as [a'|] eqn:E; [|discriminate].
    destruct (Hstep a x a' (or_introl eq_refl) E) as [Hi Hx].
    destruct (IH (fun a x a' Hin => Hstep a x a' (or_intror Hin)) a' Hr)
      as [Hi' Hall].
    split; [eapply incl_tran; eassumption|].
    intros y [<- | Hy]; [eapply Hmono; eassumption | apply Hall, Hy].
Qed.

(** A loop whose body returns under an invariant returns. *)
Lemma foldM_total {A B : Type} (P : A -> Prop) (f : A -> B -> option A)
    (l : list B) (a : A) :
  P a ->
  (forall a x, In x l -> P a -> exists a', f a x = Some a' /\ P a') ->
  exists r, foldM f l a = Some r /\ P r.
Proof.
  revert a; induction l as [|x l IH]; simpl; intros a Ha Hstep.
  - eauto.
  - destruct (Hstep a x (or_introl eq_refl) Ha) as [a' [E Ha']].
    rewrite E. apply IH; [exact Ha'|]. intros a0 y Hy. apply Hstep. auto.
Qed.

Lemma pushNew_hd (a : list str) (x s : str) :
  hd_error a = Some s -> hd_error (JsArray.pushNew a x) = Some s.
Proof.
  unfold JsArray.pushNew. destruct (JsArray.includes a x); [auto|].
  destruct a; simpl; [discriminate | auto].
Qed.

Lemma fold_pushNew_hd (xs a : list str) (s : str) :
  hd_error a = Some s -> hd_error (fold_left JsArray.pushNew xs a) = Some s.
Proof.
  revert a; induction xs as [|x xs IH]; intros a H; simpl; [exact H|].
  apply IH, pushNew_hd, H.
Qed.

(** The array built by one call, for an invariant [P] of the array that is
    kept when a new successor and its own closure are added. *)
Lemma fetch_E_Closure_inv (P : list str -> Prop) (d : nat) (state : str)
    (ts : list Transition.t) (c : list str) :
  P [state] ->
  (forall acc t n sub,
      In t ts -> isEpsilonSymbol (Transition.symbol t) = true ->
      Transition.state t = state -> In n (Transition.nextStates t) ->
      ~ In n acc -> fetch_E_Closure d n ts = Some sub -> P acc ->
      P (fold_left JsArray.pushNew sub (acc ++ [n]))) ->
  fetch_E_Closure (S d) state ts = Some c -> P c.
Proof.
  intros Hstart Hadd. simpl.
  apply foldM_inv with (P := P); [exact Hstart|].
  intros acc t acc' Ht Hacc.
  destruct (isEpsilonSymbol (Transition.symbol t)) eqn:He; simpl;
    [|congruence].
  destruct (JsString.eqb state (Transition.state t)) eqn:Hs; [|congruence].
  apply eqb_eq in Hs.
  apply foldM_inv with (P := P); [exact Hacc|].
  intros acc1 n acc2 Hn Hacc1.
  destruct (JsArray.includes acc1 n) eqn:Hi; [congruence|].
  apply includes_not_In in Hi.
  destruct (fetch_E_Closure d n ts) as [sub|] eqn:Hsub; [|discriminate].
  intros [= <-]. eapply Hadd; eauto.
Qed.

Lemma fetch_E_Closure_sound (d : nat) (ts : list Transition.t) :
  forall state c, fetch_E_Closure d state ts = Some c ->
                  forall x, In x c -> epsilonReach ts state x.
Proof.
  induction d as [|d IH]; intros state c Hc; [discriminate|].
  eapply fetch_E_Closure_inv
    with (P := fun acc => forall x, In x acc -> epsilonReach ts state x);
    [ | | exact Hc].
  - intros x [<- | []]. constructor.
  - intros acc t n sub Ht He Hs Hn _ Hsub Hacc x Hx.
    assert (Hstep : epsilonReach ts state n).
    { eapply reach_next; [apply reach_self|]. exists t. auto. }
    apply fold_pushNew_In in Hx. destruct Hx as [Hx | Hx].
    + apply in_app_iff in Hx. destruct Hx as [Hx | [<- | []]]; auto.
    + eapply epsilonReach_trans; [exact Hstep|]. eapply IH; eassumption.
Qed.

Lemma fetch_E_Closure_NoDup_hd (d : nat) (ts : list Transition.t)
    (state : str) (c : list str) :
  fetch_E_Closure d state ts = Some c -> NoDup c /\ hd_error c = Some state.
Proof.
  destruct d as [|d]; [discriminate|]. intros Hc.
  eapply fetch_E_Closure_inv
    with (P := fun acc => NoDup acc /\ hd_error acc = Some state);
    [ | | exact Hc].
  - split; [repeat constructor; simpl; tauto | reflexivity].
  - intros acc t n sub _ _ _ _ Hn _ [Hnd Hhd]. split.
    + apply fold_pushNew_NoDup. apply NoDup_app; [exact Hnd | | ].
      * repeat constructor; simpl; tauto.
      * intros x Hx [<- | []]. auto.
    + apply fold_pushNew_hd. destruct acc; [discriminate | exact Hhd].
Qed.

(** Every successor of the state itself ends up in the array. *)
Lemma fetch_E_Closure_first_steps (d : nat) (ts : list Transition.t)
    (state : str) (c : list str) :
  fetch_E_Closure (S d) state ts = Some c ->
  forall y, epsilonStep ts state y -> In y c.
Proof.
  simpl. intros Hc y [t [Ht [He [Hs Hy]]]].
  apply foldM_grow
    with (R := fun t acc =>
                 isEpsilonSymbol (Transition.symbol t) = true ->
                 Transition.state t = state ->
                 incl (Transition.nextStates t) acc) in Hc.
  - destruct Hc as [_ Hall]. apply (Hall t Ht He Hs y Hy).
  - clear. intros acc t acc' _.
    destruct (isEpsilonSymbol (Transition.symbol t)) eqn:He; simpl.
    + destruct (JsString.eqb state (Transition.state t)) eqn:Hs.
      * intros H. apply foldM_grow with (R := fun n acc => In n acc) in H.
        -- destruct H as [Hi Hall]. split; [exact Hi|]. intros _ _ n Hn.
           apply Hall, Hn.
        -- clear. intros acc n acc' _.
           destruct (JsArray.includes acc n) eqn:Hi.
           ++ intros [= <-]. split; [apply incl_refl|].
              apply includes_In, Hi.
           ++ destruct (fetch_E_Closure d n ts); [|discriminate].
              intros [= <-]. split.
              ** intros x Hx. apply fold_pushNew_In. left.
                 apply in_or_app. auto.
              ** apply fold_pushNew_In. left. apply in_or_app.
                 right. left. reflexivity.
        -- intros n a a' Hn Hi. apply Hi, Hn.
      * intros [= <-]. split; [apply incl_refl|]. intros _ E.
        apply eqb_neq in Hs. congruence.
    + intros [= <-]. split; [apply incl_refl|]. discriminate.
  - intros t0 a a' H Hi He0 Hs0. eapply incl_tran; [apply H; assumption|].
    exact Hi.
Qed.

Lemma fetch_E_Closure_closed (d : nat) (ts : list Transition.t) :
  forall state c, fetch_E_Closure d state ts = Some c ->
                  forall x y, In x c -> epsilonStep ts x y -> In y c.
Proof.
  induction d as [|d IH]; intros state c Hc; [discriminate|].
  assert (Hrest : forall x y, In x c -> x <> state ->
                              epsilonStep ts x y -> In y c).
  { eapply fetch_E_Closure_inv
      with (P := fun acc => forall x y, In x acc -> x <> state ->
                                        epsilonStep ts x y -> In y acc);
      [ | | exact Hc].
    - intros x y [<- | []] Hne; congruence.
    - intros acc t n sub _ _ _ _ _ Hsub Hacc x y Hx Hne Hstep.
      apply fold_pushNew_In.
      assert (Hself : In n sub)
        by (eapply fetch_E_Closure_self; exact Hsub).
      apply fold_pushNew_In in Hx. destruct Hx as [Hx | Hx].
      + apply in_app_iff in Hx. destruct Hx as [Hx | [<- | []]].
        * left. apply in_or_app. left. eapply Hacc; eassumption.
        * right. apply (IH _ _ Hsub _ _ Hself Hstep).
      + right. apply (IH _ _ Hsub _ _ Hx Hstep). }
  intros x y Hx Hstep.
  destruct (list_eq_dec N.eq_dec x state) as [-> | Hne].
  - eapply fetch_E_Closure_first_steps; eassumption.
  - eapply Hrest; eassumption.
Qed.

Lemma fetch_E_Closure_complete (d : nat) (ts : list Transition.t)
    (state : str) (c : list str) :
  fetch_E_Closure d state ts = Some c ->
  forall x, epsilonReach ts state x -> In x c.
Proof.
  intros H x Hr. induction Hr as [|x y _ IH Hstep].
  - eapply fetch_E_Closure_self, H.
  - eapply fetch_E_Closure_closed; eassumption.
Qed.

(** X8: When a call of [fetch_E_Closure] returns, the array it returns starts
    with the state, has no repetition, and holds exactly the states reached
    from the state by zero or more epsilon transitions. *)
Theorem fetch_E_Closure_reachable (depth : nat) (state : str)
    (transitions : list Transition.t) (closure : list str) :
  fetch_E_Closure depth state transitions = Some closure ->
  hd_error closure = Some state /\
  NoDup closure /\
  forall x, In x closure <-> epsilonReach transitions state x.
Proof.
  intros H. destruct (fetch_E_Closure_NoDup_hd _ _ _ H) as [Hnd Hhd].
  split; [exact Hhd|]. split; [exact Hnd|].
  intros x. split.
  - eapply fetch_E_Closure_sound, H.
  - eapply fetch_E_Closure_complete, H.
Qed.

Lemma fetch_E_Closure_reachable_witness :
  fetch_E_Closure 2 (js "A") (NFA.transitions nfaLambda)
    = Some [js "A"; js "B"] /\
  (In (js "B") [js "A"; js "B"]
   <-> epsilonReach (NFA.transitions nfaLambda) (js "A") (js "B")).
Proof.
  assert (H : fetch_E_Closure 2 (js "A") (NFA.transitions nfaLambda)
              = Some [js "A"; js "B"]) by reflexivity.
  split; [exact H|].
  apply (proj2 (proj2 (fetch_E_Closure_reachable _ _ _ H))).
Defined.

(** X9: When the epsilon transitions between different states go down a
    ranking of the states, so that only self loops close a cycle, the call
    for a state returns, within a nesting of one more than its rank. *)
Theorem fetch_E_Closure_returns (rank : str -> nat)
    (transitions : list Transition.t) :
  (forall x y, epsilonStep transitions x y -> y <> x -> rank y < rank x) ->
  forall depth state,
    rank state < depth ->
    exists closure, fetch_E_Closure depth state transitions = Some closure.
Proof.
  intros Hrank depth. induction depth as [|d IH]; intros state Hd; [lia|].
  simpl.
  destruct (@foldM_total (list str) Transition.t (fun acc => In state acc)
              (fun eClosure t =>
                 if isEpsilonSymbol (Transition.symbol t)
                    && JsString.eqb state (Transition.state t)
                 then
                   foldM
                     (fun eClosure nextState =>
                        if JsArray.includes eClosure nextState
                        then Some eClosure
                        else
                          match fetch_E_Closure d nextState transitions with
                          | Some subEClosure =>
                              Some (fold_left JsArray.pushNew subEClosure
                                      (eClosure ++ [nextState]))
                          | None => None
                          end)
                     (Transition.nextStates t) eClosure
                 else Some eClosure)
              transitions [state]) as [r [Hr _]].
  - left; reflexivity.
  - intros acc t Ht Hacc.
    destruct (isEpsilonSymbol (Transition.symbol t)) eqn:He; simpl; [|eauto].
    destruct (JsString.eqb state (Transition.state t)) eqn:Hs; [|eauto].
    apply eqb_eq in Hs.
    apply foldM_total with (P := fun acc => In state acc); [exact Hacc|].
    intros acc1 n Hn Hacc1.
    destruct (JsArray.includes acc1 n) eqn:Hi; [eauto|].
    apply includes_not_In in Hi.
    assert (Hne : n <> state) by (intros ->; auto).
    assert (Hlt : rank n < rank state).
    { apply Hrank; [|exact Hne]. exists t. auto. }
    destruct (IH n ltac:(lia)) as [sub Hsub]. rewrite Hsub.
    eexists. split; [reflexivity|].
    apply fold_pushNew_In. left. apply in_or_app. auto.
  - eauto.
Qed.

(** On A-λ->B, B-1->C, with A ranked above B and C. *)
Lemma fetch_E_Closure_returns_witness :
  exists closure,
    fetch_E_Closure 2 (js "A") (NFA.transitions nfaLambda) = Some closure.
Proof.
  apply (@fetch_E_Closure_returns rankLambda (NFA.transitions nfaLambda)).
  - intros x y [t [Ht [He [Hs Hy]]]] _.
    destruct Ht as [<- | [<- | []]]; simpl in *.
    + subst x. destruct Hy as [<- | []]. vm_compute. lia.
    + discriminate He.
  - vm_compute. lia.
Defined.

(** ** Epsilon elimination: the transitions it builds *)

Lemma foldM_members {B : Type} (f : list str -> B -> option (list str))
    (S : B -> str -> Prop) (l : list B) (acc r : list str) :
  (forall acc x acc',
      In x l -> f acc x = Some acc' ->
      (NoDup acc -> NoDup acc') /\
      (forall y, In y acc' <-> In y acc \/ S x y)) ->
  foldM f l acc = Some r ->
  (NoDup acc -> NoDup r) /\
  (forall y, In y r <-> In y acc \/ exists x, In x l /\ S x y).
Proof.
  revert acc; induction l as [|x l IH]; simpl; intros acc Hstep Hr.
  - injection Hr as <-. split; [auto|]. intros y. split; [auto|].
    intros [H | [x [[] _]]]. exact H.
  - destruct (f acc x) as [acc'|] eqn:E; [|discriminate].
    destruct (Hstep acc x acc' (or_introl eq_refl) E) as [Hnd Hin].
    destruct (IH acc' (fun a y a' Hy => Hstep a y a' (or_intror Hy)) Hr)
      as [Hnd' Hin'].
    split; [auto|]. intros y. rewrite Hin', Hin. split.
    + intros [[H | H] | [z [Hz H]]]; eauto.
    + intros [H | [z [[<- | Hz] H]]]; eauto.
Qed.

Lemma foldM_each {A B : Type} (f : A -> B -> option A) (D : B -> Prop)
    (l : list B) (a r : A) :
  (forall a x a', In x l -> f a x = Some a' -> D x) ->
  foldM f l a = Some r -> forall x, In x l -> D x.
Proof.
  revert a; induction l as [|x l IH]; simpl; intros a Hstep Hr y Hy;
    [contradiction|].
  destruct (f a x) as [a'|] eqn:E; [|discriminate].
  destruct Hy as [<- | Hy]; [eapply Hstep; eauto|].
  eapply IH; [|exact Hr|exact Hy]. intros a0 z a0' Hz. apply Hstep. auto.
Qed.

(** What lines 161-174 collect: the closures of the successors, on the
    symbol, of the states of [stateClosure]. *)
Lemma symbolNextStates_spec (d : nat) (ts : list Transition.t)
    (sc : list str) (a : str) (next : list str) :
  symbolNextStates d ts sc a = Some next ->
  NoDup next /\
  (forall p q, In p sc -> In q (findNextStates p a ts) ->
               exists c, fetch_E_Closure d q ts = Some c) /\
  (forall x, In x next <->
             exists p q c, In p sc /\ In q (findNextStates p a ts) /\
                           fetch_E_Closure d q ts = Some c /\ In x c).
Proof.
  unfold symbolNextStates. intros H.
  assert (Hinner : forall acc p acc',
    foldM
      (fun acc nextState =>
         match fetch_E_Closure d nextState ts with
         | Some closure => Some (fold_left JsArray.pushNew closure acc)
         | None => None
         end) (findNextStates p a ts) acc = Some acc' ->
    ((NoDup acc -> NoDup acc') /\
     (forall y, In y acc' <->
                In y acc \/
                exists q, In q (findNextStates p a ts) /\
                          exists c, fetch_E_Closure d q ts = Some c /\ In y c))
    /\ (forall q, In q (findNextStates p a ts) ->
                  exists c, fetch_E_Closure d q ts = Some c)).
  { intros acc p acc' Hf. split.
    - eapply foldM_members; [|exact Hf].
      intros acc0 q acc1 _. cbv beta.
      destruct (fetch_E_Closure d q ts) as [c|]; [|discriminate].
      intros [= <-]. split; [apply fold_pushNew_NoDup|].
      intros y. rewrite fold_pushNew_In. split.
      + intros [Hy | Hy]; eauto.
      + intros [Hy | [c' [[= <-] Hy]]]; auto.
    - eapply foldM_each; [|exact Hf].
      intros acc0 q acc1 _. cbv beta.
      destruct (fetch_E_Closure d q ts) as [c|]; [eauto | discriminate]. }
  destruct (@foldM_members _ _
              (fun p y => exists q, In q (findNextStates p a ts) /\
                 exists c, fetch_E_Closure d q ts = Some c /\ In y c)
              sc [] next
              (fun acc p acc' _ Hf => proj1 (Hinner acc p acc' Hf)) H)
    as [Hnd Hin].
  split; [|split].
  - apply Hnd. constructor.
  - intros p q Hp Hq.
    apply (@foldM_each _ _ _
             (fun p => forall q, In q (findNextStates p a ts) ->
                                 exists c, fetch_E_Closure d q ts = Some c)
             sc [] next
             (fun acc p0 acc' _ Hf => proj2 (Hinner acc p0 acc' Hf)) H p Hp q
             Hq).
  - intros x. rewrite Hin. split.
    + intros [[] | [p [Hp [q [Hq [c [Hc Hx]]]]]]]. exists p, q, c. auto.
    + intros [p [q [c [Hp [Hq [Hc Hx]]]]]]. right. exists p.
      split; [exact Hp|]. exists q. split; [exact Hq|]. exists c. auto.
Qed.

Lemma closed_symbols (d : nat) (ts : list Transition.t) (state : str)
    (sc : list str) (sigma : list str) :
  forall closed r,
    foldM
      (fun closed symbol =>
         match symbolNextStates d ts sc symbol with
         | Some next =>
             Some (closed ++ [Transition.mk state (JsArray.sort next) symbol])
         | None => None
         end) sigma closed = Some r ->
    exists new,
      r = closed ++ new /\
      List.map transitionKey new = List.map (pair state) sigma /\
      Forall (fun t => exists next,
                  symbolNextStates d ts sc (Transition.symbol t) = Some next /\
                  Transition.nextStates t = JsArray.sort next) new.
Proof.
  induction sigma as [|a sigma IH]; simpl; intros closed r H.
  - injection H as <-. exists []. rewrite app_nil_r. auto.
  - destruct (symbolNextStates d ts sc a) as [next|] eqn:E; [|discriminate].
    destruct (IH _ _ H) as [new [-> [Hk Hq]]].
    exists (Transition.mk state (JsArray.sort next) a :: new).
    rewrite <- app_assoc. split; [reflexivity|]. split.
    + simpl. unfold transitionKey at 1. simpl. f_equal. exact Hk.
    + constructor; [|exact Hq]. exists next. auto.
Qed.

Lemma closed_states (d : nat) (ts : list Transition.t) (sigma : list str)
    (states : list str) :
  forall closed r,
    foldM
      (fun closed state =>
         match fetch_E_Closure d state ts with
         | None => None
         | Some stateClosure =>
             foldM
               (fun closed symbol =>
                  match symbolNextStates d ts stateClosure symbol with
                  | Some next =>
                      Some (closed
                              ++ [Transition.mk state (JsArray.sort next)
                                    symbol])
                  | None => None
                  end) sigma closed
         end) states closed = Some r ->
    exists new,
      r = closed ++ new /\
      List.map transitionKey new = list_prod states sigma /\
      Forall (fun t => exists sc next,
                  fetch_E_Closure d (Transition.state t) ts = Some sc /\
                  symbolNextStates d ts sc (Transition.symbol t) = Some next /\
                  Transition.nextStates t = JsArray.sort next) new.
Proof.
  induction states as [|s states IH]; simpl; intros closed r H.
  - injection H as <-. exists []. rewrite app_nil_r. auto.
  - destruct (fetch_E_Closure d s ts) as [sc|] eqn:Hsc; [|discriminate].
    destruct (foldM _ sigma closed) as [mid|] eqn:Hmid; [|discriminate].
    destruct (closed_symbols _ _ _ _ _ _ Hmid) as [new1 [-> [Hk1 Hq1]]].
    destruct (IH _ _ H) as [new2 [-> [Hk2 Hq2]]].
    exists (new1 ++ new2). rewrite <- app_assoc. split; [reflexivity|]. split.
    + rewrite map_app, Hk1, Hk2. reflexivity.
    + apply Forall_app. split; [|exact Hq2].
      assert (Hsrc : Forall (fun t => Transition.state t = s) new1).
      { apply Forall_forall. intros t Ht.
        assert (Hin : In (transitionKey t) (List.map (pair s) sigma))
          by (rewrite <- Hk1; apply in_map, Ht).
        apply in_map_iff in Hin. destruct Hin as [a [E _]].
        unfold transitionKey in E. congruence. }
      rewrite Forall_forall in *. intros t Ht.
      destruct (Hq1 t Ht) as [next [H1 H2]]. exists sc, next.
      rewrite (Hsrc t Ht). auto.
Qed.

(** X10: When the automaton has an epsilon transition and [lambdaClosureNFA]
    returns, the new transition list has one transition for each state and
    each alphabet symbol, state by state in the order of the alphabet; the
    successors of the transition for a state and a symbol are sorted, not
    repeated, and are exactly the states reached by epsilon transitions,
    one transition on the symbol, and epsilon transitions again. *)
Theorem lambdaClosureNFA_transitions (depth : nat) (w w1 : World)
    (nfa nfa1 : NFA.t) :
  hasLambda nfa = true ->
  lambdaClosureNFA depth w nfa = Some (w1, nfa1) ->
  List.map transitionKey (NFA.transitions nfa1)
    = list_prod (NFA.states nfa) (NFA.alphabet nfa) /\
  forall t, In t (NFA.transitions nfa1) ->
    NoDup (Transition.nextStates t) /\
    sortedStr (Transition.nextStates t) /\
    forall x, In x (Transition.nextStates t) <->
              closedSuccessor (NFA.transitions nfa) (Transition.state t)
                (Transition.symbol t) x.
Proof.
  intros Hl Hrun. unfold lambdaClosureNFA in Hrun. rewrite Hl in Hrun.
  simpl in Hrun.
  destruct (nfaClosedTransitions depth nfa) as [closed|] eqn:Hc;
    [|discriminate].
  destruct (fetch_E_Closure depth (NFA.initialState nfa) (NFA.transitions nfa));
    [|discriminate].
  assert (E : NFA.transitions nfa1 = closed)
    by (injection Hrun as _ <-; reflexivity).
  rewrite E. clear Hrun E.
  destruct (closed_states _ _ _ _ _ Hc) as [new [-> [Hk Hq]]]. simpl.
  split; [exact Hk|]. intros t Ht. rewrite Forall_forall in Hq.
  destruct (Hq t Ht) as [sc [next [Hsc [Hnext Hsort]]]].
  destruct (symbolNextStates_spec _ _ _ _ Hnext) as [Hnd [Hall Hin]].
  rewrite Hsort. split; [|split].
  - eapply Permutation_NoDup; [|exact Hnd].
    apply Permutation_sym, sort_Permutation.
  - apply sort_sorted.
  - intros x. rewrite sort_In, Hin. split.
    + intros [p [q [c [Hp [Hqn [Hcq Hx]]]]]]. exists p, q.
      split; [eapply fetch_E_Closure_sound; eassumption|].
      split; [exact Hqn|]. eapply fetch_E_Closure_sound; eassumption.
    + intros [p [q [Hp [Hqn Hx]]]].
      apply (@fetch_E_Closure_complete _ _ _ _ Hsc) in Hp.
      destruct (Hall p q Hp Hqn) as [c Hcq]. exists p, q, c.
      repeat split; try assumption.
      eapply fetch_E_Closure_complete; eassumption.
Qed.

(** On A-λ->B, B-1->C: A gets the transition to C. *)
Lemma lambdaClosureNFA_transitions_witness :
  lambdaClosureNFA 2 (worldOf ["C"%string]) nfaLambda
    = Some (worldOf ["C"%string], nfaLambdaClosed) /\
  List.map transitionKey (NFA.transitions nfaLambdaClosed)
    = list_prod (NFA.states nfaLambda) (NFA.alphabet nfaLambda) /\
  (In (js "C") [js "C"]
   <-> closedSuccessor (NFA.transitions nfaLambda) (js "A") (js "1") (js "C")).
Proof.
  assert (Hrun : lambdaClosureNFA 2 (worldOf ["C"%string]) nfaLambda
                 = Some (worldOf ["C"%string], nfaLambdaClosed))
    by reflexivity.
  split; [exact Hrun|].
  destruct (@lambdaClosureNFA_transitions 2 _ _ nfaLambda _ eq_refl Hrun)
    as [Hk Hall].
  split; [exact Hk|].
  apply (proj2 (proj2 (Hall (Transition.mk (js "A") [js "C"] (js "1"))
                         (or_introl eq_refl)))).
Defined.

Lemma setNth_length (r : nat) (v : list str) (cs : list (list str)) :
  length (setNth r v cs) = length cs.
Proof.
  revert r; induction cs as [|c cs IH]; intros [|r]; simpl; auto.
Qed.

Lemma setNth_other (r r' : nat) (v : list str) (cs : list (list str)) :
  r' <> r -> nth r' (setNth r v cs) [] = nth r' cs [].
Proof.
  revert r r'; induction cs as [|c cs IH]; intros [|r] [|r'] H; simpl;
    try reflexivity; try congruence.
  apply IH. congruence.
Qed.

(** X11: [lambdaClosureNFA] keeps the initial state, the states, the alphabet
    and the final-state array of its argument, and the step record; in the
    store it touches that array alone, and only to push the initial state
    at its end. *)
Theorem lambdaClosureNFA_keeps (depth : nat) (w w1 : World)
    (nfa nfa1 : NFA.t) :
  lambdaClosureNFA depth w nfa = Some (w1, nfa1) ->
  NFA.initialState nfa1 = NFA.initialState nfa /\
  NFA.states nfa1 = NFA.states nfa /\
  NFA.alphabet nfa1 = NFA.alphabet nfa /\
  NFA.finalStates nfa1 = NFA.finalStates nfa /\
  LAST_COMPLETED_STEP_COUNT w1 = LAST_COMPLETED_STEP_COUNT w /\
  length (cells w1) = length (cells w) /\
  (forall r, r <> NFA.finalStates nfa -> deref w1 r = deref w r) /\
  (deref w1 (NFA.finalStates nfa) = deref w (NFA.finalStates nfa) \/
   deref w1 (NFA.finalStates nfa)
   = deref w (NFA.finalStates nfa) ++ [NFA.initialState nfa]).
Proof.
  unfold lambdaClosureNFA. destruct (hasLambda nfa); simpl.
  - destruct (nfaClosedTransitions depth nfa); [|discriminate].
    destruct (fetch_E_Closure depth (NFA.initialState nfa)
                (NFA.transitions nfa)); [|discriminate].
    destruct (existsb _ _); intros [= <- <-]; simpl.
    + repeat split; try reflexivity.
      * apply setNth_length.
      * intros r Hr. unfold deref, assign; simpl. apply setNth_other, Hr.
      * destruct (Nat.lt_ge_cases (NFA.finalStates nfa) (length (cells w)))
          as [Hlt | Hge].
        -- right. apply deref_assign, Hlt.
        -- left. unfold deref, assign; simpl.
           rewrite !nth_overflow; [reflexivity | exact Hge |].
           rewrite setNth_length. exact Hge.
    + repeat split; auto.
  - intros [= <- <-]. repeat split; auto.
Qed.

Lemma lambdaClosureNFA_keeps_witness :
  NFA.states nfaLambdaClosed = NFA.states nfaLambda /\
  NFA.alphabet nfaLambdaClosed = NFA.alphabet nfaLambda /\
  NFA.finalStates nfaLambdaClosed = NFA.finalStates nfaLambda.
Proof.
  destruct (@lambdaClosureNFA_keeps 2 (worldOf ["C"%string])
              (worldOf ["C"%string]) nfaLambda nfaLambdaClosed eq_refl)
    as [_ [H1 [H2 [H3 _]]]].
  repeat split; assumption.
Defined.

(** X12: When the alphabet holds neither the empty string nor the epsilon
    glyph, the automaton returned by [lambdaClosureNFA] has no transition
    labelled with one of them. *)
Theorem lambdaClosureNFA_no_residual (depth : nat) (w w1 : World)
    (nfa nfa1 : NFA.t) :
  (forall a, In a (NFA.alphabet nfa) -> a <> [] /\ a <> LAMBDA) ->
  lambdaClosureNFA depth w nfa = Some (w1, nfa1) ->
  forall t, In t (NFA.transitions nfa1) ->
            Transition.symbol t <> [] /\ Transition.symbol t <> LAMBDA.
Proof.
  intros Halpha Hrun. unfold lambdaClosureNFA in Hrun.
  destruct (hasLambda nfa) eqn:Hl; simpl in Hrun.
  - destruct (nfaClosedTransitions depth nfa) as [closed|] eqn:Hc;
      [|discriminate].
    destruct (fetch_E_Closure depth (NFA.initialState nfa)
                (NFA.transitions nfa)); [|discriminate].
    injection Hrun as _ <-. simpl. intros t Ht.
    apply nfaClosedTransitions_symbols in Hc. rewrite Forall_forall in Hc.
    apply Halpha, Hc, Ht.
  - injection Hrun as _ <-. apply hasLambda_false_iff, Hl.
Qed.

Lemma lambdaClosureNFA_no_residual_witness :
  In (Transition.mk (js "A") [js "C"] (js "1"))
    (NFA.transitions nfaLambdaClosed) /\
  js "1" <> [] /\ js "1" <> LAMBDA.
Proof.
  assert (Hin : In (Transition.mk (js "A") [js "C"] (js "1"))
                  (NFA.transitions nfaLambdaClosed))
    by (left; reflexivity).
  split; [exact Hin|].
  apply (@lambdaClosureNFA_no_residual 2 (worldOf ["C"%string])
           (worldOf ["C"%string]) nfaLambda nfaLambdaClosed) with
    (t := Transition.mk (js "A") [js "C"] (js "1")).
  - simpl. intros a [<- | []]. split; discriminate.
  - reflexivity.
  - exact Hin.
Defined.

(** ** Subset constructor: the automaton it builds *)

Lemma hd_error_app_one (l : list str) (x s : str) :
  hd_error l = Some s -> hd_error (l ++ [x]) = Some s.
Proof. destruct l; simpl; [discriminate | auto]. Qed.

Lemma NoDup_app_one (l : list str) (x : str) :
  NoDup l -> ~ In x l -> NoDup (l ++ [x]).
Proof.
  intros H Hx. apply NoDup_app; [exact H | repeat constructor; simpl; tauto|].
  intros y Hy [<- | []]. auto.
Qed.

Lemma exploreSymbol_consistent (nfa : NFA.t) (init state : str)
    (members : list str) (e : Exploration) (a : str) :
  In state (dfaStates e) -> consistent init e ->
  In state (dfaStates (exploreSymbol nfa state members e a)) /\
  consistent init (exploreSymbol nfa state members e a).
Proof.
  intros Hst [Hnd Hhd Hstk Htr]. unfold exploreSymbol.
  assert (Hold : forall x t,
             In t (dfaTransitions e) ->
             In (Transition.state t) (dfaStates e ++ [x]) /\
             exists n, Transition.nextStates t = [n] /\
                       In n (dfaStates e ++ [x])).
  { intros x t Ht. destruct (Htr t Ht) as [H1 [n [H2 H3]]].
    split; [apply in_or_app; auto|]. exists n. split; [exact H2|].
    apply in_or_app; auto. }
  destruct (truthy _) as [c|].
  - destruct (JsArray.includes (dfaStates e) c) eqn:Hc.
    + apply includes_In in Hc. split; [exact Hst|].
      constructor; simpl; try assumption.
      intros t Ht. apply in_app_iff in Ht.
      destruct Ht as [Ht | [<- | []]]; [auto|]. simpl. eauto.
    + apply includes_not_In in Hc. split; [apply in_or_app; auto|].
      constructor; simpl.
      * apply NoDup_app_one; assumption.
      * apply hd_error_app_one, Hhd.
      * intros s [<- | Hs]; apply in_or_app; [right; left; reflexivity|].
        left. apply Hstk, Hs.
      * intros t Ht. apply in_app_iff in Ht.
        destruct Ht as [Ht | [<- | []]]; [auto|]. simpl.
        split; [apply in_or_app; auto|]. exists c. split; [reflexivity|].
        apply in_or_app. right. left. reflexivity.
  - destruct (JsArray.includes (dfaStates e) TRAP) eqn:Hc.
    + apply includes_In in Hc. split; [exact Hst|].
      constructor; simpl; try assumption.
      intros t Ht. apply in_app_iff in Ht.
      destruct Ht as [Ht | [<- | []]]; [auto|]. simpl. eauto.
    + apply includes_not_In in Hc. split; [apply in_or_app; auto|].
      constructor; simpl.
      * apply NoDup_app_one; assumption.
      * apply hd_error_app_one, Hhd.
      * intros s Hs. apply in_or_app. left. apply Hstk, Hs.
      * assert (Htrap : In TRAP (dfaStates e ++ [TRAP]))
          by (apply in_or_app; right; left; reflexivity).
        intros t Ht. rewrite !in_app_iff in Ht.
        destruct Ht as [Ht | [Ht | [<- | []]]]; [auto | |].
        -- apply in_map_iff in Ht. destruct Ht as [x [<- _]]. simpl. eauto.
        -- simpl. split; [apply in_or_app; auto|]. eauto.
Qed.

Lemma exploreSymbols_consistent (nfa : NFA.t) (init state : str)
    (members todo : list str) (e : Exploration) :
  In state (dfaStates e) -> consistent init e ->
  consistent init (fold_left (exploreSymbol nfa state members) todo e).
Proof.
  revert e; induction todo as [|a todo IH]; intros e Hst H; simpl; [exact H|].
  destruct (@exploreSymbol_consistent nfa init state members e a Hst H)
    as [Hst' H'].
  apply IH; assumption.
Qed.

Lemma explore_consistent (nfa : NFA.t) (init : str) (stop : Z) (fuel : nat)
    (e r : Exploration) :
  consistent init e -> explore fuel nfa stop e = Some r -> consistent init r.
Proof.
  revert e; induction fuel as [|fuel IH]; intros e H Hrun; simpl in Hrun.
  - destruct (stack e); [|discriminate]. injection Hrun as <-. exact H.
  - destruct (stack e) as [|state rest] eqn:Hs.
    + injection Hrun as <-. exact H.
    + destruct H as [Hnd Hhd Hstk Htr]. rewrite Hs in Hstk.
      assert (H0 : forall c i,
                 consistent init
                   (mkExploration c i (dfaStates e) (dfaTransitions e) rest)).
      { intros c i. constructor; simpl; try assumption.
        intros s Hin. apply Hstk. right. exact Hin. }
      destruct (Z.eqb (stepCounter e + 1) stop).
      * injection Hrun as <-. apply H0.
      * eapply IH; [|exact Hrun]. apply exploreSymbols_consistent.
        -- simpl. apply Hstk. left. reflexivity.
        -- apply H0.
Qed.

Lemma startExploration_consistent (nfa : NFA.t) :
  consistent (NFA.initialState nfa) (startExploration nfa).
Proof.
  constructor; simpl.
  - repeat constructor. simpl. tauto.
  - reflexivity.
  - apply incl_refl.
  - intros t [].
Qed.

(** X13: Whatever the step limit, the automaton returned by [generateDFA] is
    well formed: its states are pairwise different and the first of them is
    its initial state, the initial state of the NFA; every transition leaves
    one of its states and has exactly one successor, one of its states. *)
Theorem generateDFA_well_formed (depth fuel : nat) (w w' : World)
    (nfa dfa : NFA.t) (stop : Z) :
  generateDFA depth fuel w nfa stop = Some (w', dfa) ->
  NFA.initialState dfa = NFA.initialState nfa /\
  NFA.alphabet dfa = NFA.alphabet nfa /\
  hd_error (NFA.states dfa) = Some (NFA.initialState dfa) /\
  NoDup (NFA.states dfa) /\
  forall t, In t (NFA.transitions dfa) ->
            In (Transition.state t) (NFA.states dfa) /\
            exists n, Transition.nextStates t = [n] /\ In n (NFA.states dfa).
Proof.
  intros Hrun.
  destruct (generateDFA_inv _ _ _ _ _ Hrun)
    as [w1 [nfa1 [e [Hl [He [Hi [Hst [Hal [Htr _]]]]]]]]].
  destruct (lambdaClosureNFA_frame _ _ _ Hl) as [Hi1 [_ [_ [Hal1 _]]]].
  destruct (explore_consistent _ _ _ (startExploration_consistent nfa1) He)
    as [Hnd Hhd _ Hts].
  rewrite Hi, Hst, Hal, Htr.
  split; [exact Hi1|]. split; [exact Hal1|]. split; [exact Hhd|].
  split; [exact Hnd | exact Hts].
Qed.

Lemma generateDFA_well_formed_witness :
  hd_error (NFA.states dfaInterrupted) = Some (NFA.initialState dfaInterrupted)
  /\ NoDup (NFA.states dfaInterrupted).
Proof.
  destruct (@generateDFA_well_formed 0 3 worldBefore worldInterrupted
              nfaSubset dfaInterrupted 2 eq_refl) as [_ [_ [H1 [H2 _]]]].
  split; assumption.
Defined.

Lemma exploreSymbol_steps (nfa : NFA.t) (state : str) (members : list str)
    (e : Exploration) (a : str) :
  stepsAccounted e -> stepsAccounted (exploreSymbol nfa state members e a).
Proof.
  unfold stepsAccounted, exploreSymbol. intros H.
  destruct (truthy _) as [c|].
  - destruct (JsArray.includes (dfaStates e) c); simpl; [exact H|].
    rewrite length_app; simpl.
    destruct H as [H | [H Ht]]; [left; lia|].
    right. split; [lia | apply in_or_app; auto].
  - destruct (JsArray.includes (dfaStates e) TRAP) eqn:Hc; simpl; [exact H|].
    apply includes_not_In in Hc. rewrite length_app; simpl.
    destruct H as [H | [_ Ht]]; [|contradiction].
    right. split; [lia | apply in_or_app; right; left; reflexivity].
Qed.

Lemma exploreSymbols_steps (nfa : NFA.t) (state : str) (members todo : list str)
    (e : Exploration) :
  stepsAccounted e ->
  stepsAccounted (fold_left (exploreSymbol nfa state members) todo e).
Proof.
  revert e; induction todo as [|a todo IH]; intros e H; simpl; [exact H|].
  apply IH, exploreSymbol_steps, H.
Qed.

Lemma explore_steps (nfa : NFA.t) (stop : Z) (fuel : nat) (e r : Exploration) :
  stepsAccounted e -> explore fuel nfa stop e = Some r ->
  stepsAccounted r.
Proof.
  revert e; induction fuel as [|fuel IH]; intros e H Hrun; simpl in Hrun.
  - destruct (stack e); [|discriminate]. injection Hrun as <-. exact H.
  - destruct (stack e) as [|state rest] eqn:Hs.
    + injection Hrun as <-. exact H.
    + assert (H0 : forall i,
                 stepsAccounted
                   (mkExploration (stepCounter e + 1) i (dfaStates e)
                      (dfaTransitions e) rest)).
      { intros i. unfold stepsAccounted in *. rewrite Hs in H. simpl in *.
        destruct H as [H | [H Ht]]; [left; lia | right; split; [lia|exact Ht]]. }
      destruct (Z.eqb (stepCounter e + 1) stop) eqn:E.
      * injection Hrun as <-. apply H0.
      * eapply IH; [|exact Hrun]. apply exploreSymbols_steps, H0.
Qed.

(** X17: Without a step limit (a limit of zero or less is none), the step count
    that [generateDFA] records is the number of states of the automaton it
    returns, or one less when the trap state is among them. *)
Theorem generateDFA_step_count (depth fuel : nat) (w w' : World)
    (nfa dfa : NFA.t) (stop : Z) :
  (stop <= 0)%Z ->
  generateDFA depth fuel w nfa stop = Some (w', dfa) ->
  LAST_COMPLETED_STEP_COUNT w' = Z.of_nat (length (NFA.states dfa)) \/
  ((LAST_COMPLETED_STEP_COUNT w' + 1)%Z = Z.of_nat (length (NFA.states dfa)) /\
   In TRAP (NFA.states dfa)).
Proof.
  intros Hstop Hrun.
  destruct (generateDFA_inv _ _ _ _ _ Hrun)
    as [w1 [nfa1 [e [Hl [He [_ [Hst [_ [_ [_ Hlast]]]]]]]]]].
  assert (Hni : stepInterrupt e = false)
    by (eapply explore_unlimited; [| |exact He]; simpl; [lia | reflexivity]).
  destruct (explore_outcome _ _ _ _ (eq_refl : stepInterrupt (startExploration nfa1) = false) He)
    as [[Hi _] | [_ Hempty]]; [congruence|].
  assert (Hacc : stepsAccounted e).
  { eapply explore_steps; [|exact He]. left. reflexivity. }
  rewrite Hni in Hlast. rewrite Hlast, Hst.
  unfold stepsAccounted in Hacc. rewrite Hempty in Hacc. simpl in Hacc.
  destruct Hacc as [H | [H Ht]]; [left; lia | right; split; [lia | exact Ht]].
Qed.

Lemma generateDFA_step_count_witness :
  LAST_COMPLETED_STEP_COUNT worldSubset
  = Z.of_nat (length (NFA.states dfaSubset)) \/
  ((LAST_COMPLETED_STEP_COUNT worldSubset + 1)%Z
   = Z.of_nat (length (NFA.states dfaSubset)) /\
   In TRAP (NFA.states dfaSubset)).
Proof.
  apply (@generateDFA_step_count 0 3 worldBefore worldSubset nfaSubset
           dfaSubset (-1)).
  - lia.
  - reflexivity.
Defined.

Lemma exploreSymbol_constructed (nfa : NFA.t) (state : str) (e : Exploration)
    (a : str) :
  In a (NFA.alphabet nfa) ->
  Forall (constructed nfa) (dfaTransitions e) ->
  Forall (constructed nfa)
    (dfaTransitions (exploreSymbol nfa state (membersOf state) e a)).
Proof.
  intros Ha H. unfold exploreSymbol.
  assert (Hloops : Forall (constructed nfa)
                     (List.map (fun a => Transition.mk TRAP [TRAP] a)
                        (NFA.alphabet nfa))).
  { apply Forall_forall. intros t Ht. apply in_map_iff in Ht.
    destruct Ht as [x [<- Hx]]. split; [exact Hx | left; auto]. }
  destruct (truthy _) as [c|] eqn:E.
  - assert (Hnew : constructed nfa (Transition.ofString state c a)).
    { split; [exact Ha|]. right. simpl. unfold dfaTarget. rewrite E.
      reflexivity. }
    destruct (JsArray.includes (dfaStates e) c); simpl;
      apply Forall_app; split; auto.
  - assert (Hnew : constructed nfa (Transition.mk state [TRAP] a)).
    { split; [exact Ha|]. right. simpl. unfold dfaTarget. rewrite E.
      reflexivity. }
    destruct (JsArray.includes (dfaStates e) TRAP); simpl;
      repeat (apply Forall_app; split); auto.
Qed.

Lemma exploreSymbols_constructed (nfa : NFA.t) (state : str)
    (todo : list str) (e : Exploration) :
  incl todo (NFA.alphabet nfa) ->
  Forall (constructed nfa) (dfaTransitions e) ->
  Forall (constructed nfa)
    (dfaTransitions
       (fold_left (exploreSymbol nfa state (membersOf state)) todo e)).
Proof.
  revert e; induction todo as [|a todo IH]; intros e Hin H; simpl; [exact H|].
  apply IH; [intros x Hx; apply Hin; right; exact Hx|].
  apply exploreSymbol_constructed; [apply Hin; left; reflexivity | exact H].
Qed.

Lemma explore_constructed (nfa : NFA.t) (stop : Z) (fuel : nat)
    (e r : Exploration) :
  Forall (constructed nfa) (dfaTransitions e) ->
  explore fuel nfa stop e = Some r ->
  Forall (constructed nfa) (dfaTransitions r).
Proof.
  revert e; induction fuel as [|fuel IH]; intros e H Hrun; simpl in Hrun.
  - destruct (stack e); [|discriminate]. injection Hrun as <-. exact H.
  - destruct (stack e) as [|state rest].
    + injection Hrun as <-. exact H.
    + destruct (Z.eqb (stepCounter e + 1) stop).
      * injection Hrun as <-. exact H.
      * eapply IH; [|exact Hrun].
        apply exploreSymbols_constructed; [apply incl_refl | exact H].
Qed.

(** X14: Every transition of the automaton returned by [generateDFA] is on a
    symbol of the alphabet and is either a self loop of the trap state or
    the step of the subset construction on the epsilon-free NFA: from a
    state to the identifier of the union of the successors of its members,
    or to the trap state when no member has a successor. *)
Theorem generateDFA_transition_function (depth fuel : nat) (w w' : World)
    (nfa dfa : NFA.t) (stop : Z) :
  generateDFA depth fuel w nfa stop = Some (w', dfa) ->
  exists w1 nfa1,
    lambdaClosureNFA depth w nfa = Some (w1, nfa1) /\
    forall t, In t (NFA.transitions dfa) ->
      In (Transition.symbol t) (NFA.alphabet dfa) /\
      ((Transition.state t = TRAP /\ Transition.nextStates t = [TRAP]) \/
       Transition.nextStates t
       = [dfaTarget nfa1 (Transition.state t) (Transition.symbol t)]).
Proof.
  intros Hrun.
  destruct (generateDFA_inv _ _ _ _ _ Hrun)
    as [w1 [nfa1 [e [Hl [He [_ [_ [Hal [Htr _]]]]]]]]].
  exists w1, nfa1. split; [exact Hl|].
  assert (H : Forall (constructed nfa1) (dfaTransitions e))
    by (eapply explore_constructed; [|exact He]; constructor).
  rewrite Forall_forall in H. rewrite Htr, Hal. exact H.
Qed.

(** On [nfaSubset]: from {A,B} on 1 to {A,C}. *)
Lemma generateDFA_transition_function_witness :
  In (js "1") (NFA.alphabet dfaSubset) /\
  ((js "{A,B}" = TRAP /\ [js "{A,C}"] = [TRAP]) \/
   [js "{A,C}"] = [dfaTarget nfaSubset (js "{A,B}") (js "1")]).
Proof.
  destruct (@generateDFA_transition_function 0 3 worldBefore worldSubset
              nfaSubset dfaSubset (-1) eq_refl) as [w1 [nfa1 [Hl H]]].
  injection Hl as _ <-.
  apply (H (arrow "{A,B}" "{A,C}" "1")). simpl. auto 6.
Defined.

Lemma explore_rows (nfa : NFA.t) (stop : Z) (fuel : nat) (e r : Exploration) :
  loopInv (NFA.alphabet nfa) e ->
  explore fuel nfa stop e = Some r ->
  forall s, In s (dfaStates r) ->
            row s (dfaTransitions r) = [] \/
            explored (NFA.alphabet nfa) s (dfaTransitions r).
Proof.
  assert (Hbase : forall e, loopInv (NFA.alphabet nfa) e ->
            forall s, In s (dfaStates e) ->
                      row s (dfaTransitions e) = [] \/
                      explored (NFA.alphabet nfa) s (dfaTransitions e)).
  { intros e0 [_ _ Hfr Hrows _ _] s Hs.
    destruct (Hrows s Hs) as [H | H]; [left; apply Hfr, H | right; exact H]. }
  revert e; induction fuel as [|fuel IH]; intros e Hinv Hrun; simpl in Hrun.
  - destruct (stack e); [|discriminate]. injection Hrun as <-.
    apply Hbase, Hinv.
  - destruct (stack e) as [|state rest] eqn:Hs.
    + injection Hrun as <-. apply Hbase, Hinv.
    + destruct (Z.eqb (stepCounter e + 1) stop).
      * injection Hrun as <-. simpl. apply Hbase, Hinv.
      * eapply IH; [|exact Hrun]. apply pop_inv; assumption.
Qed.

(** X15: Whatever the step limit, each state of the automaton returned by
    [generateDFA] has either no transition at all (it was not explored
    before the interruption) or one transition for each symbol of the
    alphabet, in the order of the alphabet. *)
Theorem generateDFA_rows (depth fuel : nat) (w w' : World)
    (nfa dfa : NFA.t) (stop : Z) :
  generateDFA depth fuel w nfa stop = Some (w', dfa) ->
  forall s, In s (NFA.states dfa) ->
    row s (NFA.transitions dfa) = [] \/
    List.map Transition.symbol (row s (NFA.transitions dfa))
    = NFA.alphabet dfa.
Proof.
  intros Hrun s Hs.
  destruct (generateDFA_inv _ _ _ _ _ Hrun)
    as [w1 [nfa1 [e [Hl [He [_ [Hst [Hal [Htr _]]]]]]]]].
  rewrite Htr, Hal. rewrite Hst in Hs.
  apply (explore_rows _ _ _ (startExploration_inv nfa1) He s Hs).
Qed.

Lemma generateDFA_rows_witness :
  row (js "{A,B}") (NFA.transitions dfaInterrupted) = [] \/
  List.map Transition.symbol
    (row (js "{A,B}") (NFA.transitions dfaInterrupted))
  = NFA.alphabet dfaInterrupted.
Proof.
  apply (@generateDFA_rows 0 3 worldBefore worldInterrupted nfaSubset
           dfaInterrupted 2 eq_refl).
  simpl. auto.
Defined.

Lemma explore_counter_le (nfa : NFA.t) (stop : Z) (fuel : nat)
    (e r : Exploration) :
  explore fuel nfa stop e = Some r -> (stepCounter e <= stepCounter r)%Z.
Proof.
  revert e; induction fuel as [|fuel IH]; intros e Hrun; simpl in Hrun.
  - destruct (stack e); [|discriminate]. injection Hrun as <-. lia.
  - destruct (stack e) as [|state rest].
    + injection Hrun as <-. lia.
    + destruct (Z.eqb (stepCounter e + 1) stop).
      * injection Hrun as <-. simpl. lia.
      * apply IH in Hrun.
        destruct (exploreSymbols_counter nfa state (membersOf state)
                    (NFA.alphabet nfa)
                    (mkExploration (stepCounter e + 1) (stepInterrupt e)
                       (dfaStates e) (dfaTransitions e) rest)) as [E _].
        rewrite E in Hrun. simpl in Hrun. lia.
Qed.

(** A limit that the counter does not reach is no limit. *)
Lemma explore_beyond (nfa : NFA.t) (stop stop' : Z) (fuel : nat)
    (e r : Exploration) :
  explore fuel nfa stop e = Some r ->
  stepInterrupt e = false -> stepInterrupt r = false ->
  (stop' <= stepCounter e \/ stepCounter r < stop')%Z ->
  explore fuel nfa stop' e = Some r.
Proof.
  revert e; induction fuel as [|fuel IH]; intros e Hrun Hi Hr Hs;
    simpl in *.
  - exact Hrun.
  - destruct (stack e) as [|state rest]; [exact Hrun|].
    destruct (Z.eqb (stepCounter e + 1) stop) eqn:E.
    + injection Hrun as <-. discriminate.
    + pose proof (explore_counter_le _ _ _ _ Hrun) as Hle.
      destruct (exploreSymbols_counter nfa state (membersOf state)
                  (NFA.alphabet nfa)
                  (mkExploration (stepCounter e + 1) (stepInterrupt e)
                     (dfaStates e) (dfaTransitions e) rest)) as [E1 E2].
      rewrite E1 in Hle. simpl in Hle.
      assert (E' : Z.eqb (stepCounter e + 1) stop' = false)
        by (apply Z.eqb_neq; lia).
      rewrite E'. apply IH; try assumption.
      * rewrite E2. exact Hi.
      * rewrite E1. simpl. lia.
Qed.

(** X18: A step limit of zero or less is no limit, and a limit above the step
    count recorded by the construction without limit changes nothing: the
    same automaton and the same world are returned. *)
Theorem generateDFA_limit_not_reached (depth fuel : nat) (w w' : World)
    (nfa dfa : NFA.t) (stop : Z) :
  generateDFA depth fuel w nfa (-1) = Some (w', dfa) ->
  (stop <= 0 \/ LAST_COMPLETED_STEP_COUNT w' < stop)%Z ->
  generateDFA depth fuel w nfa stop = Some (w', dfa).
Proof.
  intros Hrun Hstop.
  destruct (generateDFA_inv _ _ _ _ _ Hrun)
    as [w1 [nfa1 [e [Hl [He [_ [_ [_ [_ [_ Hlast]]]]]]]]]].
  assert (Hni : stepInterrupt e = false)
    by (eapply explore_unlimited; [| |exact He]; simpl; [lia | reflexivity]).
  rewrite Hni in Hlast.
  assert (He' : explore fuel nfa1 stop (startExploration nfa1) = Some e).
  { eapply explore_beyond; [exact He | reflexivity | exact Hni |].
    simpl. lia. }
  unfold generateDFA in *. rewrite Hl in *. rewrite He in Hrun. rewrite He'.
  exact Hrun.
Qed.

(** On [nfaSubset] the construction takes 3 steps: the limit 4 of the last
    step button returns the whole automaton. *)
Lemma generateDFA_limit_not_reached_witness :
  generateDFA 0 3 worldBefore nfaSubset 4 = Some (worldSubset, dfaSubset).
Proof.
  apply generateDFA_limit_not_reached.
  - reflexivity.
  - right. simpl. lia.
Defined.

Lemma lambdaClosureNFA_cells (depth : nat) (w w1 : World) (nfa nfa1 : NFA.t) :
  lambdaClosureNFA depth w nfa = Some (w1, nfa1) ->
  length (cells w1) = length (cells w).
Proof.
  unfold lambdaClosureNFA. destruct (hasLambda nfa); simpl.
  - destruct (nfaClosedTransitions depth nfa); [|discriminate].
    destruct (fetch_E_Closure depth (NFA.initialState nfa)
                (NFA.transitions nfa)); [|discriminate].
    destruct (existsb _ _); intros [= <- <-]; simpl; [|reflexivity].
    apply setNth_length.
  - intros [= <- <-]. reflexivity.
Qed.

(** X19: The final-state array of the automaton returned by [generateDFA] is a
    new one, held by no automaton of the world before the call; the arrays
    of that world are as the closure stage left them. *)
Theorem generateDFA_fresh_finals (depth fuel : nat) (w w' : World)
    (nfa dfa : NFA.t) (stop : Z) :
  generateDFA depth fuel w nfa stop = Some (w', dfa) ->
  NFA.finalStates dfa = length (cells w) /\
  length (cells w') = S (length (cells w)) /\
  exists w1 nfa1,
    lambdaClosureNFA depth w nfa = Some (w1, nfa1) /\
    forall r, r < length (cells w) -> deref w' r = deref w1 r.
Proof.
  unfold generateDFA. intros Hrun.
  destruct (lambdaClosureNFA depth w nfa) as [[w1 nfa1]|] eqn:Hl;
    [|discriminate].
  pose proof (lambdaClosureNFA_cells _ _ _ Hl) as Hlen.
  destruct (explore fuel nfa1 stop (startExploration nfa1)) as [e|];
    [|discriminate].
  unfold alloc in Hrun. injection Hrun as <- <-.
  destruct (stepInterrupt e); simpl.
  - split; [exact Hlen|]. split; [rewrite length_app; simpl; lia|].
    exists w1, nfa1. split; [reflexivity|]. intros r Hr.
    unfold deref. simpl. apply app_nth1. lia.
  - split; [exact Hlen|]. split; [rewrite length_app; simpl; lia|].
    exists w1, nfa1. split; [reflexivity|]. intros r Hr.
    unfold deref. simpl. apply app_nth1. lia.
Qed.

Lemma generateDFA_fresh_finals_witness :
  NFA.finalStates dfaSubset = length (cells worldBefore) /\
  length (cells worldSubset) = S (length (cells worldBefore)).
Proof.
  destruct (@generateDFA_fresh_finals 0 3 worldBefore worldSubset nfaSubset
              dfaSubset (-1) eq_refl) as [H1 [H2 _]].
  split; assumption.
Defined.

(** ** Minimizer *)

Arguments mergePair : simpl never.

Lemma mergePair_cases (state state2 : str) (w : World) (dfa : NFA.t) :
  mergePair state state2 (w, dfa) = (w, dfa) \/
  exists remove,
    (remove = state \/ remove = state2) /\
    remove <> NFA.initialState dfa /\ remove <> TRAP /\
    mergePair state state2 (w, dfa)
    = (fst (alloc w (filter
                       (fun s => negb (JsString.eqb (formatDotState s)
                                         (formatDotState remove)))
                       (deref w (NFA.finalStates dfa)))),
       NFA.mk (NFA.initialState dfa) (length (cells w))
         (filter (fun s => negb (JsString.eqb (formatDotState s)
                                   (formatDotState remove)))
            (NFA.states dfa))
         (NFA.alphabet dfa)
         (rewriteTransitions remove
            (if JsString.eqb (NFA.initialState dfa) state
             then state else state2)
            (NFA.transitions dfa))).
Proof.
  unfold mergePair.
  destruct (JsString.eqb state state2) eqn:Hne; simpl; [left; reflexivity|].
  destruct (Bool.eqb _ _); [|left; reflexivity].
  destruct (forallb _ _); [|left; reflexivity].
  apply eqb_neq in Hne.
  destruct (JsString.eqb (NFA.initialState dfa) state) eqn:Hi.
  - apply eqb_eq in Hi.
    destruct (JsString.eqb state2 TRAP) eqn:Ht; [left; reflexivity|].
    apply eqb_neq in Ht. right. exists state2.
    repeat split; auto. congruence.
  - apply eqb_neq in Hi.
    destruct (JsString.eqb state TRAP) eqn:Ht; [left; reflexivity|].
    apply eqb_neq in Ht. right. exists state.
    repeat split; auto.
Qed.

(** An invariant of the automaton that every step of the two loops keeps
    is kept by [minimizeDFA]. *)
Lemma minimizeDFA_inv (P : World * NFA.t -> Prop) (w : World) (dfa : NFA.t) :
  (forall acc, P acc -> incl (NFA.states (snd acc)) (NFA.states dfa)) ->
  (forall state state2 acc,
      In state (NFA.states dfa) -> In state2 (NFA.states dfa) ->
      P acc -> P (mergePair state state2 acc)) ->
  P (w, dfa) -> P (minimizeDFA w dfa).
Proof.
  intros Hincl Hstep. unfold minimizeDFA.
  assert (Hinner : forall state l acc,
             In state (NFA.states dfa) -> incl l (NFA.states dfa) -> P acc ->
             P (fold_left (fun acc state2 => mergePair state state2 acc) l acc)).
  { intros state l. induction l as [|s2 l IH]; intros acc Hs Hl Hacc; simpl.
    - exact Hacc.
    - apply IH; [exact Hs | intros x Hx; apply Hl; right; exact Hx|].
      apply Hstep; [exact Hs | apply Hl; left; reflexivity | exact Hacc]. }
  assert (Houter : forall l acc,
             incl l (NFA.states dfa) -> P acc ->
             P (fold_left
                  (fun acc state =>
                     fold_left (fun acc state2 => mergePair state state2 acc)
                       (NFA.states (snd acc)) acc) l acc)).
  { induction l as [|s l IH]; intros acc Hl Hacc; simpl.
    - exact Hacc.
    - apply IH; [intros x Hx; apply Hl; right; exact Hx|].
      apply Hinner; [apply Hl; left; reflexivity | apply Hincl, Hacc
                    | exact Hacc]. }
  intros H0. apply Houter; [apply incl_refl | exact H0].
Qed.

(** X20: When no two states of the automaton have the same display name,
    [minimizeDFA] keeps the initial state and the trap state among the
    states. *)
Theorem minimizeDFA_keeps_initial_and_trap (w : World) (dfa : NFA.t) :
  (forall s s', In s (NFA.states dfa) -> In s' (NFA.states dfa) ->
                formatDotState s = formatDotState s' -> s = s') ->
  (In (NFA.initialState dfa) (NFA.states dfa) ->
   In (NFA.initialState dfa) (NFA.states (snd (minimizeDFA w dfa)))) /\
  (In TRAP (NFA.states dfa) ->
   In TRAP (NFA.states (snd (minimizeDFA w dfa)))).
Proof.
  intros Hinj.
  pose (P := fun acc : World * NFA.t =>
               NFA.initialState (snd acc) = NFA.initialState dfa /\
               incl (NFA.states (snd acc)) (NFA.states dfa) /\
               forall s, (s = NFA.initialState dfa \/ s = TRAP) ->
                         In s (NFA.states dfa) -> In s (NFA.states (snd acc))).
  assert (HP : P (minimizeDFA w dfa)).
  { apply minimizeDFA_inv.
    - intros acc [_ [H _]]. exact H.
    - intros state state2 [w0 d0] Hs Hs2 [Hi [Hincl Hkeep]]. simpl in *.
      destruct (mergePair_cases state state2 w0 d0)
        as [-> | [remove [Hrem [Hri [Hrt ->]]]]].
      + repeat split; assumption.
      + simpl. split; [exact Hi|]. split.
        * intros x Hx. apply filter_In in Hx. apply Hincl, Hx.
        * intros s Hs0 Hin. apply filter_In. split; [apply Hkeep; assumption|].
          apply negb_true_iff, eqb_neq. intros E.
          assert (Hr : In remove (NFA.states dfa))
            by (destruct Hrem as [-> | ->]; assumption).
          apply (Hinj s remove Hin Hr) in E.
          destruct Hs0 as [-> | ->]; congruence.
    - repeat split; [apply incl_refl | auto]. }
  destruct HP as [_ [_ Hkeep]]. split; intros H; apply Hkeep; auto.
Qed.

(** On [dfaTwins] with a and b final, the state a is merged into b, and
    the initial state q stays. *)
Lemma minimizeDFA_keeps_initial_and_trap_witness :
  NFA.states (snd (minimizeDFA (worldOf ["a"; "b"]%string) dfaTwins))
    = [js "q"; js "b"] /\
  In (NFA.initialState dfaTwins)
    (NFA.states (snd (minimizeDFA (worldOf ["a"; "b"]%string) dfaTwins))).
Proof.
  split; [reflexivity|].
  apply (minimizeDFA_keeps_initial_and_trap (worldOf ["a"; "b"]%string)
           dfaTwins).
  - intros s s' Hs Hs' E. simpl in Hs, Hs'.
    destruct Hs as [<- | [<- | [<- | []]]];
      destruct Hs' as [<- | [<- | [<- | []]]];
      try reflexivity; discriminate E.
  - simpl. auto.
Defined.




(** ** Final-state classification *)

Lemma separateStates_of_sorted (members : list str) :
  2 <= length members ->
  (forall x, In x members -> ~ In 44%N x) ->
  separateStates ([123%N] ++ JsArray.join members ++ [125%N])
  = IsArray members.
Proof.
  intros Hlen Hc. unfold separateStates.
  rewrite isMultiState_brackets, inner_brackets, splitComma_join;
    [reflexivity | | exact Hc].
  destruct members; simpl in Hlen; [lia | discriminate].
Qed.

(** X5: Round trip of the codec: from two or more comma-free state names
    [combineStates] builds a bracketed identifier, and [separateStates]
    returns from it the array of these names, sorted. *)
Theorem separateStates_inverts_combineStates (members : list str) :
  2 <= length members ->
  (forall x, In x members -> ~ In 44%N x) ->
  exists c,
    combineStates (List.map Some members) = Some c /\
    isMultiState c = true /\
    separateStates c = IsArray (JsArray.sort members).
Proof.
  intros Hlen Hc. rewrite combineStates_render, dropNull_Some.
  pose proof (sort_length members) as HL.
  assert (Hs : forall x, In x (JsArray.sort members) -> ~ In 44%N x)
    by (intros x Hx; apply Hc, sort_In, Hx).
  pose proof (@separateStates_of_sorted (JsArray.sort members)
                ltac:(rewrite HL; exact Hlen) Hs) as Hsep.
  destruct (JsArray.sort members) as [|a [|b l]] eqn:E; simpl in HL; try lia.
  unfold render. eexists. split; [reflexivity|].
  split; [apply isMultiState_brackets | exact Hsep].
Qed.

Lemma separateStates_inverts_combineStates_witness :
  exists c,
    combineStates (List.map Some [js "q1"; js "q0"]) = Some c /\
    isMultiState c = true /\
    separateStates c = IsArray (JsArray.sort [js "q1"; js "q0"]).
Proof.
  apply separateStates_inverts_combineStates.
  - simpl. lia.
  - simpl. intros x [<- | [<- | []]]; simpl; intuition discriminate.
Defined.

Lemma isPrefix_refl (s : str) : JsString.isPrefix s s = true.
Proof. induction s as [|c s IH]; simpl; [|rewrite N.eqb_refl]; auto. Qed.

(** X7: The test of lines 315-316 on the identifier of two or more comma-free
    states holds exactly when one of these states is a final state of the
    NFA; on an identifier that is not bracketed it holds at least when the
    identifier is itself a final state of the NFA. *)
Theorem isFinal_members (nfaFinalStates members : list str) :
  (forall s, isMultiState s = false -> In s nfaFinalStates ->
             isFinal nfaFinalStates s = true) /\
  (2 <= length members ->
   (forall x, In x members -> ~ In 44%N x) ->
   exists c,
     combineStates (List.map Some members) = Some c /\
     (isFinal nfaFinalStates c = true <->
      exists m, In m members /\ In m nfaFinalStates)).
Proof.
  split.
  - intros s Hs Hin. unfold isFinal. apply existsb_exists. exists s.
    split; [exact Hin|]. rewrite separateStates_not_multi by exact Hs.
    simpl. destruct s; simpl; rewrite ?N.eqb_refl, ?isPrefix_refl; reflexivity.
  - intros Hlen Hc. rewrite combineStates_render, dropNull_Some.
    pose proof (sort_length members) as HL.
    assert (Hs : forall x, In x (JsArray.sort members) -> ~ In 44%N x)
      by (intros x Hx; apply Hc, sort_In, Hx).
    assert (Hsep : separateStates
                     ([123%N] ++ JsArray.join (JsArray.sort members)
                        ++ [125%N])
                   = IsArray (JsArray.sort members))
      by (apply separateStates_of_sorted; [rewrite HL; exact Hlen | exact Hs]).
    assert (Hr : render (JsArray.sort members)
                 = Some ([123%N] ++ JsArray.join (JsArray.sort members)
                           ++ [125%N])).
    { destruct (JsArray.sort members) as [|a [|b l]]; simpl in HL; try lia.
      reflexivity. }
    rewrite Hr. eexists. split; [reflexivity|].
    unfold isFinal. rewrite Hsep. simpl. rewrite existsb_exists. split.
    + intros [fs [Hfs Hi]]. apply includes_In in Hi.
      apply (proj1 (sort_In _ _)) in Hi. exists fs. split; assumption.
    + intros [m [Hm Hfs]]. exists m. split; [exact Hfs|].
      apply includes_In, sort_In, Hm.
Qed.

Lemma isFinal_members_witness :
  isFinal [js "C"] (js "C") = true /\
  exists c,
    combineStates (List.map Some [js "A"; js "C"]) = Some c /\
    (isFinal [js "C"] c = true <->
     exists m, In m [js "A"; js "C"] /\ In m [js "C"]).
Proof.
  destruct (isFinal_members [js "C"] [js "A"; js "C"]) as [H1 H2].
  split.
  - apply H1; [reflexivity | left; reflexivity].
  - apply H2.
    + simpl. lia.
    + simpl. intros x [<- | [<- | []]]; simpl; intuition discriminate.
Defined.

(** ** Form input *)






(** ** Subset constructor: no orphan state *)

Lemma exploreSymbol_entered (nfa : NFA.t) (init state : str)
    (members : list str) (e : Exploration) (a : str) :
  (forall s, In s (dfaStates e) ->
             s = init \/ exists t, In t (dfaTransitions e) /\
                                   Transition.nextStates t = [s]) ->
  forall s, In s (dfaStates (exploreSymbol nfa state members e a)) ->
            s = init \/
            exists t, In t (dfaTransitions (exploreSymbol nfa state members e a))
                      /\ Transition.nextStates t = [s].
Proof.
  intros H. unfold exploreSymbol.
  assert (Hold : forall more s,
             In s (dfaStates e) ->
             s = init \/ exists t, In t (dfaTransitions e ++ more) /\
                                   Transition.nextStates t = [s]).
  { intros more s Hs. destruct (H s Hs) as [-> | [t [Ht E]]]; [auto|].
    right. exists t. split; [apply in_or_app; auto | exact E]. }
  destruct (truthy _) as [c|].
  - destruct (JsArray.includes (dfaStates e) c); simpl.
    + intros s Hs. apply Hold, Hs.
    + intros s Hs. apply in_app_iff in Hs.
      destruct Hs as [Hs | [<- | []]]; [apply Hold, Hs|].
      right. eexists. split; [apply in_or_app; right; left; reflexivity|].
      reflexivity.
  - destruct (JsArray.includes (dfaStates e) TRAP); simpl.
    + intros s Hs. apply Hold, Hs.
    + intros s Hs. apply in_app_iff in Hs.
      destruct Hs as [Hs | [<- | []]]; [apply Hold, Hs|].
      right. exists (Transition.mk state [TRAP] a).
      split; [|reflexivity]. apply in_or_app. right. apply in_or_app.
      right. left. reflexivity.
Qed.

Lemma exploreSymbols_entered (nfa : NFA.t) (init state : str)
    (members todo : list str) (e : Exploration) :
  (forall s, In s (dfaStates e) ->
             s = init \/ exists t, In t (dfaTransitions e) /\
                                   Transition.nextStates t = [s]) ->
  forall s,
    In s (dfaStates (fold_left (exploreSymbol nfa state members) todo e)) ->
    s = init \/
    exists t,
      In t (dfaTransitions (fold_left (exploreSymbol nfa state members) todo e))
      /\ Transition.nextStates t = [s].
Proof.
  revert e; induction todo as [|a todo IH]; intros e H; simpl; [exact H|].
  apply IH. apply exploreSymbol_entered, H.
Qed.

Lemma explore_entered (nfa : NFA.t) (init : str) (stop : Z) (fuel : nat)
    (e r : Exploration) :
  (forall s, In s (dfaStates e) ->
             s = init \/ exists t, In t (dfaTransitions e) /\
                                   Transition.nextStates t = [s]) ->
  explore fuel nfa stop e = Some r ->
  forall s, In s (dfaStates r) ->
            s = init \/ exists t, In t (dfaTransitions r) /\
                                  Transition.nextStates t = [s].
Proof.
  revert e; induction fuel as [|fuel IH]; intros e H Hrun; simpl in Hrun.
  - destruct (stack e); [|discriminate]. injection Hrun as <-. exact H.
  - destruct (stack e) as [|state rest].
    + injection Hrun as <-. exact H.
    + destruct (Z.eqb (stepCounter e + 1) stop).
      * injection Hrun as <-. exact H.
      * eapply IH; [|exact Hrun]. apply exploreSymbols_entered. exact H.
Qed.

(** X16: Every state of the automaton returned by [generateDFA], the initial
    state apart, is the successor of one of its transitions. *)
Theorem generateDFA_no_orphan (depth fuel : nat) (w w' : World)
    (nfa dfa : NFA.t) (stop : Z) :
  generateDFA depth fuel w nfa stop = Some (w', dfa) ->
  forall s, In s (NFA.states dfa) ->
            s = NFA.initialState dfa \/
            exists t, In t (NFA.transitions dfa) /\
                      Transition.nextStates t = [s].
Proof.
  intros Hrun.
  destruct (generateDFA_inv _ _ _ _ _ Hrun)
    as [w1 [nfa1 [e [_ [He [Hi [Hst [_ [Htr _]]]]]]]]].
  rewrite Hi, Hst, Htr.
  eapply explore_entered; [|exact He].
  simpl. intros s [<- | []]. left. reflexivity.
Qed.

Lemma generateDFA_no_orphan_witness :
  js "{A,C}" = NFA.initialState dfaSubset \/
  exists t, In t (NFA.transitions dfaSubset) /\
            Transition.nextStates t = [js "{A,C}"].
Proof.
  apply (@generateDFA_no_orphan 0 3 worldBefore worldSubset nfaSubset
           dfaSubset (-1) eq_refl).
  simpl. auto.
Defined.

